(** * Shift optimisation (src/optimisation/main.py)

    A shallow embedding of [optimize_shifts]: the decision variables, the
    constraints posted on the solver, the objective, the decision builder and
    the two [Solve] calls with their monitors, followed by the properties of
    the schedule that the program reports.

    [pywrapcp] is an external library.  Its search is embedded by what the
    calls of the program ask of it: a depth-first search that binds the
    variables of [s_flat] in list order ([CHOOSE_FIRST_UNBOUND]), tries the
    smallest value first ([ASSIGN_MIN_VALUE]), accepts a complete binding when
    every posted constraint holds, and then consults the monitors of the
    search.  Propagation only removes subtrees without solutions, so it is
    not part of the embedding.  The wall-clock limit is a number of complete
    bindings the search may examine before the limit is crossed; it is an
    argument of every [Solve], and the theorems quantify over it.

    The binding takes an integer argument as a signed 64-bit integer: a
    demand value outside that range makes the comparison that posts the
    demand of its slot raise [TypeError], before any search.  Memory is not
    bounded: the driver count is taken to be one for which [range(drivers)]
    and the variables can be created. *)

From Stdlib Require Import ZArith List Bool Lia Arith.
From Stdlib Require String Ascii Sorted.
Import ListNotations.
Open Scope Z_scope.

(** ** Python helpers *)

(** [range(n)] for an integer [n]; empty when [n <= 0]. *)
Definition range (n : Z) : list nat := seq 0 (Z.to_nat n).

(** [sum(l)]. *)
Definition Zsum (l : list Z) : Z := fold_right Z.add 0 l.

(** ** Variables and bindings *)

(** The variable created by [solver.IntVar(0, num_vals-1, "d%i_slot%i" % (j,i))];
    it is identified by its driver [j] and slot [i]. *)
Definition IntVar : Type := (nat * nat)%type.

Definition IntVar_eqb (u v : IntVar) : bool :=
  Nat.eqb (fst u) (fst v) && Nat.eqb (snd u) (snd v).

(** The dictionary [shifts]: [shifts[(j,i)]]. *)
Definition shifts (j i : nat) : IntVar := (j, i).

(** An assignment of values to variables, in binding order. *)
Definition Assignment : Type := list (IntVar * Z).

(** The value of a variable in an assignment. *)
Fixpoint Value (a : Assignment) (v : IntVar) : Z :=
  match a with
  | [] => 0
  | (u, x) :: rest => if IntVar_eqb u v then x else Value rest v
  end.

(** [solver.Sum(vars)] evaluated in an assignment. *)
Definition Sum (vars : list IntVar) (a : Assignment) : Z :=
  Zsum (map (Value a) vars).

(** A reified equality [x == y], as a 0/1 value. *)
Definition IsEqual (x y : IntVar) (a : Assignment) : Z :=
  if Value a x =? Value a y then 1 else 0.

(** A posted constraint, as its truth value in a complete assignment. *)
Definition Constraint : Type := Assignment -> bool.

(** What a call can fail with.  [TypeError] is raised by the solver binding
    when it is handed an integer that is not a signed 64-bit integer;
    nothing in the source raises [InvalidInput]. *)
Inductive Error : Type := InvalidInput | TypeError.

(** The integers the binding accepts. *)
Definition int64 (v : Z) : bool := (- 2 ^ 63 <=? v) && (v <=? 2 ^ 63 - 1).

(** [expr >= v] for an integer [v]: a constraint, or [TypeError] when [v]
    is not a signed 64-bit integer. *)
Definition GreaterOrEqual (expr : Assignment -> Z) (v : Z) : Error + Constraint :=
  if int64 v then inr (fun a => expr a >=? v) else inl TypeError.

(** A loop of [solver.Add(...)]: the constraints posted, or the first
    exception raised while building one of them. *)
Fixpoint Add_all (cs : list (Error + Constraint)) : Error + list Constraint :=
  match cs with
  | [] => inr []
  | inl e :: _ => inl e
  | inr c :: rest =>
      match Add_all rest with
      | inl e => inl e
      | inr posted => inr (c :: posted)
      end
  end.

(** ** The model built by [optimize_shifts] *)

Section Model.

Variable demand : list Z.
Variable drivers : Z.

Definition num_vals : Z := 2.
Definition slots : Z := Z.of_nat (length demand).
Definition min_h : Z := 4.
Definition max_h : Z := 10.

(** [s_flat = [shifts[(j,i)] for j in range(drivers) for i in range(slots)]] *)
Definition s_flat : list IntVar :=
  flat_map (fun j => map (fun i => shifts j i) (range slots)) (range drivers).

(** Demand by timeslot: one comparison per slot, in slot order; the loop
    ends at the first comparison that raises. *)
Definition demand_constraints : Error + list Constraint :=
  Add_all
    (map (fun i =>
            GreaterOrEqual (Sum (map (fun j => shifts j i) (range drivers)))
                           (nth i demand 0))
         (range slots)).

(** The constraints which that loop posts when no comparison raises. *)
Definition demand_posted : list Constraint :=
  map (fun i a =>
         Sum (map (fun j => shifts j i) (range drivers)) a >=? nth i demand 0)
      (range slots).

(** Maximum and minimum duration of shifts per driver. *)
Definition duration_constraints : list Constraint :=
  flat_map (fun j =>
              [ (fun a => Sum (map (fun i => shifts j i) (range slots)) a >=? min_h);
                (fun a => Sum (map (fun i => shifts j i) (range slots)) a <=? max_h) ])
           (range drivers).

(** Consecutive hours working. *)
Definition consecutive_constraints : list Constraint :=
  flat_map (fun j =>
              map (fun i a =>
                     Z.max (IsEqual (shifts j i) (shifts j (i+1)) a)
                           (IsEqual (shifts j (i+1)) (shifts j (i+2)) a) =? 1)
                  (range (slots - 2))
              ++
              map (fun i a =>
                     Z.max (IsEqual (shifts j i) (shifts j (i+2)) a)
                           (IsEqual (shifts j (i+2)) (shifts j (i+4)) a) =? 1)
                  (range (slots - 4)))
           (range drivers).

(** Every constraint given to [solver.Add], in posting order, when the
    model is built without exception. *)
Definition constraints : list Constraint :=
  demand_posted ++ duration_constraints ++ consecutive_constraints.

Definition feasible (a : Assignment) : bool :=
  forallb (fun c => c a) constraints.

(** [obj_var = solver.Sum([shifts[(j,i)] for j ... for i ...])] *)
Definition obj_var (a : Assignment) : Z :=
  Sum (flat_map (fun j => map (fun i => shifts j i) (range slots)) (range drivers)) a.

(** ** Monitors and search state *)

(** One solution stored by the collector: the values of the variables
    added with [collector.Add] and of the objective added with
    [collector.AddObjective]. *)
Record Solution : Type := mkSolution {
  sol_values : Assignment;
  sol_objective : Z
}.

(** [solver.FirstSolutionCollector()]: the stored solutions and the flag
    that is set once the first solution of a search has been stored. *)
Record Collector : Type := mkCollector {
  solutions : list Solution;
  done : bool
}.

(** The state of one search.  [time_left] is what remains of the
    [TimeLimit]; [finished] is set when the search has stopped;
    [best] is the value held by the [Minimize] monitor; [accepted] is the
    log of complete assignments the search has accepted, oldest first. *)
Record Search : Type := mkSearch {
  time_left : nat;
  finished : bool;
  best : option Z;
  collector : Collector;
  accepted : list Assignment
}.

(** The [Minimize(obj_var, step)] monitor accepts a solution only when it
    improves on the value it holds by at least [step]. *)
Definition accept_objective (obj_monitor : option Z) (st : Search) (a : Assignment) : bool :=
  match obj_monitor, best st with
  | Some step, Some b => obj_var a <=? b - step
  | _, _ => true
  end.

(** The collector at a solution: it stores the solution unless one is
    already stored for this search. *)
Definition collect (c : Collector) (a : Assignment) : Collector :=
  if done c then c
  else mkCollector (solutions c ++ [mkSolution a (obj_var a)]) true.

(** A complete binding has been reached.  Without a [Minimize] monitor no
    monitor asks to go on after a solution, and the search stops there. *)
Definition at_leaf (obj_monitor : option Z) (st : Search) (a : Assignment) : Search :=
  if finished st then st
  else
    match time_left st with
    | O => mkSearch O true (best st) (collector st) (accepted st)
    | S t =>
        if feasible a && accept_objective obj_monitor st a then
          match obj_monitor with
          | Some _ =>
              mkSearch t false (Some (obj_var a))
                       (collect (collector st) a) (accepted st ++ [a])
          | None =>
              mkSearch t true (best st)
                       (collect (collector st) a) (accepted st ++ [a])
          end
        else mkSearch t false (best st) (collector st) (accepted st)
    end.

(** [solver.Phase(s_flat, CHOOSE_FIRST_UNBOUND, ASSIGN_MIN_VALUE)]: bind the
    first unbound variable, to 0 and then to 1. *)
Fixpoint Phase (obj_monitor : option Z) (unbound : list IntVar)
         (bound : Assignment) (st : Search) {struct unbound} : Search :=
  if finished st then st
  else
    match unbound with
    | [] => at_leaf obj_monitor st bound
    | v :: rest =>
        Phase obj_monitor rest (bound ++ [(v, 1)])
              (Phase obj_monitor rest (bound ++ [(v, 0)]) st)
    end.

(** Entering a search clears the collector and the monitors. *)
Definition EnterSearch (time_limit : nat) (c : Collector) : Search :=
  mkSearch time_limit false None (mkCollector [] false) [].

(** [solver.Solve(db, monitors)]: the search state at the end, from which
    the collector is read, and whether a solution was found. *)
Definition Solve (obj_monitor : option Z) (time_limit : nat) (c : Collector) : Search :=
  Phase obj_monitor s_flat [] (EnterSearch time_limit c).

Definition solution_found (st : Search) : bool :=
  match accepted st with [] => false | _ :: _ => true end.

(** Reading the collector. *)
Definition no_solution : Solution := mkSolution [] 0.

Definition ObjectiveValue (c : Collector) (n : nat) : Z :=
  sol_objective (nth n (solutions c) no_solution).

Definition SolutionCount (c : Collector) : nat := length (solutions c).

Definition CollectorValue (c : Collector) (n : nat) (v : IntVar) : Z :=
  Value (sol_values (nth n (solutions c) no_solution)) v.

End Model.

(** ** What a call of [optimize_shifts] reports *)

(** [Solved]: the rows printed per driver, the objective value and the
    solution count printed with them.  [NoSolutionFound]: the other branch.
    [Raised]: an exception leaves the function; the source has no [raise] and
    no check of its arguments, so only the binding raises. *)
Inductive Outcome : Type :=
| Solved (assignment : list (list Z)) (objective_value : Z) (solution_count : nat)
| NoSolutionFound
| Raised (e : Error).

(** The rows [l] printed for each driver. *)
Definition rows (demand : list Z) (drivers : Z) (c : Collector) : list (list Z) :=
  map (fun j => map (fun i => CollectorValue c 0 (shifts j i)) (range (slots demand)))
      (range drivers).

(** The first call, [solver.Solve(db, [obj_monitor, time_limit_ms, collector])],
    on a collector that holds nothing yet.  [t1] is the number of complete
    bindings this search can examine within [time_limit]. *)
Definition first_search (demand : list Z) (drivers : Z) (t1 : nat) : Search :=
  Solve demand drivers (Some 1) t1 (mkCollector [] false).

(** The second call, [solver.Solve(db, [time_limit_ms, collector])], on the
    same collector. *)
Definition second_search (demand : list Z) (drivers : Z) (t1 t2 : nat) : Search :=
  Solve demand drivers None t2 (collector (first_search demand drivers t1)).

(** [optimize_shifts(exercise, drivers)], with the demand of the exercise
    and the time available to each of the two searches.  An exception
    raised while the constraints are posted leaves the function before any
    search. *)
Definition optimize_shifts (demand : list Z) (drivers : Z) (t1 t2 : nat) : Outcome :=
  match demand_constraints demand drivers with
  | inl e => Raised e
  | inr _ =>
      let second := second_search demand drivers t1 t2 in
      if solution_found second then
        Solved (rows demand drivers (collector second))
               (ObjectiveValue (collector second) 0)
               (SolutionCount (collector second))
      else NoSolutionFound
  end.

(** Every complete assignment the two searches of a call have accepted. *)
Definition found_during_run (demand : list Z) (drivers : Z) (t1 t2 : nat)
  : list Assignment :=
  accepted (first_search demand drivers t1)
  ++ accepted (second_search demand drivers t1 t2).

(** ** The leaves of the search tree *)

Section Leaves.

Variable demand : list Z.
Variable drivers : Z.

(** The complete bindings below a node, in the order the search reaches them. *)
Fixpoint leaves (unbound : list IntVar) (bound : Assignment) : list Assignment :=
  match unbound with
  | [] => [bound]
  | v :: rest => leaves rest (bound ++ [(v, 0)]) ++ leaves rest (bound ++ [(v, 1)])
  end.

(** The first leaf among the [t] first ones that satisfies the constraints. *)
Fixpoint first_feasible (t : nat) (l : list Assignment) : option Assignment :=
  match t, l with
  | S t', a :: l' => if feasible demand drivers a then Some a else first_feasible t' l'
  | _, _ => None
  end.

(** The rows printed for an assignment. *)
Definition rows_of (a : Assignment) : list (list Z) :=
  map (fun j => map (fun i => Value a (shifts j i)) (range (slots demand)))
      (range drivers).

End Leaves.

(** ** Vocabulary of the statements *)

(** Entry [A[j][i]] of a schedule given by rows. *)
Definition entry (A : list (list Z)) (j i : nat) : Z := nth i (nth j A []) 0.

Section Families.

Variable demand : list Z.
Variable drivers : Z.

(** A schedule is read through [M j i], the value of driver [j] in slot [i]. *)
Variable M : nat -> nat -> Z.

Definition coverage : Prop :=
  forall i, (i < length demand)%nat ->
    nth i demand 0 <= Zsum (map (fun j => M j i) (range drivers)).

Definition duration_bounds : Prop :=
  forall j, (j < Z.to_nat drivers)%nat ->
    4 <= Zsum (map (fun i => M j i) (range (slots demand))) <= 10.

Definition window3 : Prop :=
  forall j i, (j < Z.to_nat drivers)%nat -> (i + 2 < length demand)%nat ->
    M j i = M j (i + 1)%nat \/ M j (i + 1)%nat = M j (i + 2)%nat.

Definition window5 : Prop :=
  forall j i, (j < Z.to_nat drivers)%nat -> (i + 4 < length demand)%nat ->
    M j i = M j (i + 2)%nat \/ M j (i + 2)%nat = M j (i + 4)%nat.

Definition satisfies : Prop :=
  coverage /\ duration_bounds /\ window3 /\ window5.

End Families.

(** Every demand value is a signed 64-bit integer. *)
Definition fits_int64 (demand : list Z) : Prop :=
  forall d, In d demand -> - 2 ^ 63 <= d <= 2 ^ 63 - 1.

(** The values a decision variable can take. *)
Definition binary (x : Z) : Prop := x = 0 \/ x = 1.

(** Lexicographic order on value vectors, 0 before 1. *)
Fixpoint lex_le (x y : list Z) : Prop :=
  match x, y with
  | [], _ => True
  | _ :: _, [] => False
  | a :: x', b :: y' => a < b \/ (a = b /\ lex_le x' y')
  end.

(** The values of an assignment, in binding order. *)
Definition values (a : Assignment) : list Z := map snd a.

(** [ordered l]: every element of [l] is below the elements after it. *)
Inductive ordered : list Assignment -> Prop :=
| ordered_nil : ordered []
| ordered_cons a l :
    Forall (fun b => lex_le (values a) (values b)) l -> ordered l -> ordered (a :: l).

(** A complete assignment of 0/1 values to the variables of [s_flat], given
    by its values in the order of [s_flat], that satisfies every posted
    constraint. *)
Definition feasible_complete (demand : list Z) (drivers : Z) (bits : list Z) : Prop :=
  length bits = length (s_flat demand drivers)
  /\ Forall binary bits
  /\ feasible demand drivers (combine (s_flat demand drivers) bits) = true.

(** The objective value of an outcome, when there is one. *)
Definition objective_of (o : Outcome) : option Z :=
  match o with
  | Solved _ v _ => Some v
  | _ => None
  end.

(** A row in which the slots with value 1 form one block: [s] zeros, then
    [k] ones, then [e] zeros. *)
Definition block (row : list Z) (s k e : nat) : Prop :=
  row = repeat 0 s ++ repeat 1 k ++ repeat 0 e.

(** The slots with value 1 form a single run without gap. *)
Definition single_block (row : list Z) : Prop := exists s k e, block row s k e.

(** Demands used in the concrete schedules below. *)
Definition demand8 : list Z := [1;1;1;1;1;1;1;1].

Definition demand_far : list Z := [0;1;0;0;0;0;0;1].

(** ** The state of a minimizing search *)

Section Minimizing.

Variable demand : list Z.
Variable drivers : Z.

(** The objective value of the assignment accepted last. *)
Definition newest_objective (acc : list Assignment) : option Z :=
  match rev acc with
  | [] => None
  | a :: _ => Some (obj_var demand drivers a)
  end.

(** What a search with the [Minimize(obj_var, 1)] monitor keeps true of its
    state: the monitor holds the objective value of the assignment accepted
    last; the accepted assignments satisfy the constraints; each improves on
    the ones before it by at least 1; none is below the value held. *)
Definition minimizing (st : Search) : Prop :=
  best st = newest_objective (accepted st)
  /\ Forall (fun a => feasible demand drivers a = true) (accepted st)
  /\ Sorted.StronglySorted
       (fun a b => obj_var demand drivers b <= obj_var demand drivers a - 1)
       (accepted st)
  /\ forall b, best st = Some b ->
       forall x, In x (accepted st) -> b <= obj_var demand drivers x.

End Minimizing.

(** ** The rest of the printed report *)

(** The list [t] printed as "Estimated drivers per timeslot": for each slot
    the running total [l] over the drivers, started at 0. *)
Definition drivers_per_timeslot (demand : list Z) (drivers : Z) (c : Collector)
  : list Z :=
  map (fun i => fold_left (fun l j => l + CollectorValue c 0 (shifts j i))
                          (range drivers) 0)
      (range (slots demand)).

(** The list [t] of a call, read from the collector after the second search. *)
Definition estimated_drivers (demand : list Z) (drivers : Z) (t1 t2 : nat) : list Z :=
  drivers_per_timeslot demand drivers (collector (second_search demand drivers t1 t2)).

(** The number printed as "Oversupply hours":
    [collector.ObjectiveValue(0) - sum(demand)]. *)
Definition oversupply_hours (demand : list Z) (drivers : Z) (t1 t2 : nat) : Z :=
  ObjectiveValue (collector (second_search demand drivers t1 t2)) 0 - Zsum demand.

(** ** Loading the demand of an exercise *)

(** The exceptions that can leave [load_data] and the first lines of
    [optimize_shifts]; [OtherError] stands for whatever opening or decoding
    a file raises. *)
Inductive PyError : Type :=
| UnboundLocalError
| IndexError
| KeyError
| OtherError.

Module LoadData.

Import Ascii String.

(** [os.path.join(a, b)] on POSIX paths. *)
Fixpoint endswith_slash (s : string) : bool :=
  match s with
  | EmptyString => false
  | String c EmptyString => Ascii.eqb c "/"%char
  | String _ rest => endswith_slash rest
  end.

Definition startswith_slash (s : string) : bool :=
  match s with
  | String c _ => Ascii.eqb c "/"%char
  | EmptyString => false
  end.

Definition os_path_join (a b : string) : string :=
  if startswith_slash b then b
  else if String.eqb a "" || endswith_slash a then String.append a b
  else String.append a (String.append "/" b).

Definition json_files : list string := ["ex1-in.json"; "ex2-in.json"; "ex3-in.json"]%string.

Definition path_to_json : string := "planning_demand/"%string.

Section Files.

(** The decoded content of a JSON file. *)
Variable JSON : Type.

(** [json.load(open(path))]: the decoded content of the file at [path], or
    the exception raised by opening or decoding it. *)
Variable json_load : string -> PyError + JSON.

(** [json_data['demand']], or the exception raised by the lookup. *)
Variable demand_of : JSON -> PyError + list Z.

(** [load_data(exercise)]: [json_data] is bound in none of the branches when
    the exercise is not one of the three, and [return json_data] then raises
    [UnboundLocalError]. *)
Definition load_data (exercise : string) : PyError + JSON :=
  if String.eqb exercise "ex1" then
    json_load (os_path_join path_to_json (nth 0 json_files ""%string))
  else if String.eqb exercise "ex2" then
    json_load (os_path_join path_to_json (nth 1 json_files ""%string))
  else if String.eqb exercise "ex3" then
    json_load (os_path_join path_to_json (nth 2 json_files ""%string))
  else inl UnboundLocalError.

(** [optimize_shifts(exercise, drivers)] from its first line: the banner
    reads [exercise[-1]], which raises [IndexError] on the empty string; then
    the data is loaded and its demand is optimised. *)
Definition optimize_shifts_exercise (exercise : string) (drivers : Z) (t1 t2 : nat)
  : PyError + Outcome :=
  match exercise with
  | EmptyString => inl IndexError
  | String _ _ =>
      match load_data exercise with
      | inl e => inl e
      | inr json_data =>
          match demand_of json_data with
          | inl e => inl e
          | inr demand => inr (optimize_shifts demand drivers t1 t2)
          end
      end
  end.

End Files.

(** The names for which [load_data] has a branch. *)
Definition exercises : list string := ["ex1"; "ex2"; "ex3"]%string.

(** The file of an exercise. *)
Definition file_of (exercise : string) : string :=
  String.append "planning_demand/" (String.append exercise "-in.json").

(** A file system with the file of [ex1] only, holding a demand of five
    slots. *)
Definition one_file (path : string) : PyError + list Z :=
  if String.eqb path "planning_demand/ex1-in.json" then inr [0;0;0;0;0]
  else inl OtherError.

End LoadData.

(** ** Posting the demand constraints *)

Lemma int64_true v : int64 v = true <-> - 2 ^ 63 <= v <= 2 ^ 63 - 1.
Proof. unfold int64. rewrite andb_true_iff, !Z.leb_le. tauto. Qed.

Lemma fits_int64_forallb demand : forallb int64 demand = true <-> fits_int64 demand.
Proof.
  unfold fits_int64. rewrite forallb_forall. split; intros H d Hd.
  - apply int64_true, H, Hd.
  - apply int64_true, H, Hd.
Qed.

(** Either every demand value fits, or one of them does not. *)
Lemma fits_int64_cases demand :
  fits_int64 demand
  \/ exists d, In d demand /\ ~ (- 2 ^ 63 <= d <= 2 ^ 63 - 1).
Proof.
  destruct (forallb int64 demand) eqn:E.
  - left. apply fits_int64_forallb, E.
  - right. induction demand as [|x l IH]; [discriminate|]. simpl in E.
    destruct (int64 x) eqn:Ex.
    + destruct (IH E) as (d & Hd & Hn). exists d. split; [right; exact Hd | exact Hn].
    + exists x. split; [left; reflexivity|]. intros H. apply int64_true in H. congruence.
Qed.

Lemma Add_all_posts (expr : nat -> Assignment -> Z) (v : nat -> Z) (slots_ : list nat) :
  (forall i, In i slots_ -> int64 (v i) = true) ->
  Add_all (map (fun i => GreaterOrEqual (expr i) (v i)) slots_)
  = inr (map (fun i a => expr i a >=? v i) slots_).
Proof.
  induction slots_ as [|i l IH]; intros H; simpl; [reflexivity|].
  unfold GreaterOrEqual at 1. rewrite (H i (or_introl eq_refl)).
  rewrite IH by (intros k Hk; apply H; right; exact Hk). reflexivity.
Qed.

Lemma Add_all_raises (expr : nat -> Assignment -> Z) (v : nat -> Z) (slots_ : list nat) :
  (exists i, In i slots_ /\ int64 (v i) = false) ->
  Add_all (map (fun i => GreaterOrEqual (expr i) (v i)) slots_) = inl TypeError.
Proof.
  induction slots_ as [|i l IH]; intros (k & Hk & Ek); [destruct Hk|]. simpl.
  unfold GreaterOrEqual at 1. destruct (int64 (v i)) eqn:Ei; [|reflexivity].
  rewrite IH; [reflexivity|]. destruct Hk as [<- | Hk]; [congruence|].
  exists k. split; assumption.
Qed.

(** The loop over the slots posts its constraints when every demand value
    fits, and raises [TypeError] otherwise. *)
Lemma demand_constraints_fits demand drivers :
  fits_int64 demand ->
  demand_constraints demand drivers = inr (demand_posted demand drivers).
Proof.
  intros Hfit. unfold demand_constraints, demand_posted.
  apply (Add_all_posts (fun i => Sum (map (fun j => shifts j i) (range drivers)))
                       (fun i => nth i demand 0)).
  intros i Hi. unfold range, slots in Hi. rewrite Nat2Z.id in Hi. apply in_seq in Hi.
  apply int64_true, Hfit, nth_In. lia.
Qed.

Lemma demand_constraints_raises demand drivers :
  ~ fits_int64 demand ->
  demand_constraints demand drivers = inl TypeError.
Proof.
  intros Hn. unfold demand_constraints.
  apply (Add_all_raises (fun i => Sum (map (fun j => shifts j i) (range drivers)))
                        (fun i => nth i demand 0)).
  destruct (fits_int64_cases demand) as [Hfit | (d & Hd & Hout)]; [contradiction|].
  apply (In_nth _ _ 0) in Hd as (i & Hi & <-).
  exists i. split.
  - unfold range, slots. rewrite Nat2Z.id. apply in_seq. lia.
  - destruct (int64 (nth i demand 0)) eqn:E; [|reflexivity].
    apply int64_true in E. contradiction.
Qed.

(** ** The search as a walk over its leaves *)

Section Walk.

Variable demand : list Z.
Variable drivers : Z.

Lemma walk_finished om l st :
  finished st = true -> fold_left (at_leaf demand drivers om) l st = st.
Proof.
  intros Hf. induction l as [|a l IH]; simpl; [reflexivity|].
  unfold at_leaf at 2. rewrite Hf. exact IH.
Qed.

Lemma Phase_walk om unbound : forall bound st,
  Phase demand drivers om unbound bound st
  = fold_left (at_leaf demand drivers om) (leaves unbound bound) st.
Proof.
  induction unbound as [|v rest IH]; intros bound st; simpl.
  - destruct (finished st) eqn:Hf; [|reflexivity].
    unfold at_leaf. now rewrite Hf.
  - destruct (finished st) eqn:Hf.
    + now rewrite walk_finished.
    + now rewrite fold_left_app, !IH.
Qed.

Lemma at_leaf_plain st a :
  finished st = false ->
  at_leaf demand drivers None st a
  = match time_left st with
    | O => mkSearch O true (best st) (collector st) (accepted st)
    | S t =>
        if feasible demand drivers a
        then mkSearch t true (best st)
                      (collect demand drivers (collector st) a) (accepted st ++ [a])
        else mkSearch t false (best st) (collector st) (accepted st)
    end.
Proof.
  intros Hf. unfold at_leaf, accept_objective. rewrite Hf, andb_true_r. reflexivity.
Qed.

(** A search without [Minimize] monitor stops at the first feasible leaf. *)
Lemma walk_plain l : forall st,
  finished st = false ->
  match first_feasible demand drivers (time_left st) l with
  | Some a =>
      collector (fold_left (at_leaf demand drivers None) l st)
      = collect demand drivers (collector st) a
      /\ accepted (fold_left (at_leaf demand drivers None) l st) = accepted st ++ [a]
  | None =>
      collector (fold_left (at_leaf demand drivers None) l st) = collector st
      /\ accepted (fold_left (at_leaf demand drivers None) l st) = accepted st
  end.
Proof.
  induction l as [|a l IH]; intros st Hf.
  - simpl. destruct (time_left st); split; reflexivity.
  - cbn [fold_left first_feasible]. rewrite (at_leaf_plain st a Hf).
    destruct (time_left st) as [|t] eqn:Ht; cbn [first_feasible].
    + rewrite walk_finished by reflexivity. split; reflexivity.
    + destruct (feasible demand drivers a) eqn:Hfa.
      * rewrite walk_finished by reflexivity. split; reflexivity.
      * exact (IH (mkSearch t false (best st) (collector st) (accepted st)) eq_refl).
Qed.

(** When the model is built, what the second [Solve] leaves in the
    collector decides the outcome. *)
Lemma optimize_shifts_first_feasible t1 t2 :
  fits_int64 demand ->
  optimize_shifts demand drivers t1 t2
  = match first_feasible demand drivers t2 (leaves (s_flat demand drivers) []) with
    | Some a => Solved (rows_of demand drivers a) (obj_var demand drivers a) 1
    | None => NoSolutionFound
    end.
Proof.
  intros Hfit. unfold optimize_shifts.
  rewrite (demand_constraints_fits demand drivers Hfit).
  unfold second_search, Solve. rewrite (Phase_walk None).
  pose proof (walk_plain (leaves (s_flat demand drivers) [])
                (EnterSearch t2 (collector (first_search demand drivers t1)))
                eq_refl) as H.
  simpl in H.
  destruct (first_feasible demand drivers t2 (leaves (s_flat demand drivers) [])) as [a|];
    destruct H as [Hc Ha]; unfold solution_found; rewrite Ha; simpl.
  - rewrite Hc. reflexivity.
  - reflexivity.
Qed.

(** A demand value that does not fit stops the call before any search. *)
Lemma optimize_shifts_raises t1 t2 :
  ~ fits_int64 demand ->
  optimize_shifts demand drivers t1 t2 = Raised TypeError.
Proof.
  intros Hn. unfold optimize_shifts.
  rewrite (demand_constraints_raises demand drivers Hn). reflexivity.
Qed.

Lemma fits_int64_dec : fits_int64 demand \/ ~ fits_int64 demand.
Proof.
  destruct (forallb int64 demand) eqn:E.
  - left. apply fits_int64_forallb, E.
  - right. intros H. apply fits_int64_forallb in H. congruence.
Qed.

End Walk.

(** ** The constraints, read on the entries of a schedule *)

Lemma in_range n i : In i (range n) <-> (i < Z.to_nat n)%nat.
Proof. unfold range. rewrite in_seq. lia. Qed.

Lemma length_range n : length (range n) = Z.to_nat n.
Proof. unfold range. apply length_seq. Qed.

Lemma forallb_posted (a : Assignment) (f : nat -> Constraint) n :
  forallb (fun c => c a) (map f (range n)) = true
  <-> forall i, (i < Z.to_nat n)%nat -> f i a = true.
Proof.
  rewrite forallb_forall. split.
  - intros H i Hi. apply (H (f i)), in_map, in_range, Hi.
  - intros H c Hc. apply in_map_iff in Hc as (i & <- & Hi).
    apply H, in_range, Hi.
Qed.

Lemma forallb_posted_per_driver (a : Assignment) (f : nat -> list Constraint) n :
  forallb (fun c => c a) (flat_map f (range n)) = true
  <-> forall j, (j < Z.to_nat n)%nat -> forallb (fun c => c a) (f j) = true.
Proof.
  rewrite forallb_forall. split.
  - intros H j Hj. apply forallb_forall. intros c Hc.
    apply H, in_flat_map. exists j. split; [apply in_range, Hj | exact Hc].
  - intros H c Hc. apply in_flat_map in Hc as (j & Hj & Hc).
    apply in_range in Hj. specialize (H j Hj).
    rewrite forallb_forall in H. apply H, Hc.
Qed.

Lemma Max_IsEqual x y z w a :
  (Z.max (IsEqual x y a) (IsEqual z w a) =? 1) = true
  <-> Value a x = Value a y \/ Value a z = Value a w.
Proof.
  unfold IsEqual.
  destruct (Z.eqb_spec (Value a x) (Value a y));
    destruct (Z.eqb_spec (Value a z) (Value a w)); simpl; split; intros H;
    try tauto; try reflexivity; try discriminate.
Qed.

Section Reflection.

Variable demand : list Z.
Variable drivers : Z.

Lemma demand_constraints_iff a :
  forallb (fun c => c a) (demand_posted demand drivers) = true
  <-> coverage demand drivers (fun j i => Value a (shifts j i)).
Proof.
  unfold demand_posted, coverage. rewrite forallb_posted.
  unfold slots, Sum. rewrite Nat2Z.id.
  split; intros H i Hi; specialize (H i Hi); rewrite map_map in *;
    [apply Z.geb_le in H | apply Z.geb_le]; exact H.
Qed.

Lemma duration_constraints_iff a :
  forallb (fun c => c a) (duration_constraints demand drivers) = true
  <-> duration_bounds demand drivers (fun j i => Value a (shifts j i)).
Proof.
  unfold duration_constraints, duration_bounds.
  rewrite forallb_posted_per_driver.
  split; intros H j Hj; specialize (H j Hj); unfold Sum in *;
    cbn [forallb] in *; rewrite ?map_map in *; unfold min_h, max_h in *.
  - rewrite andb_true_r in H. apply andb_true_iff in H as [H1 H2].
    apply Z.geb_le in H1. apply Z.leb_le in H2. lia.
  - rewrite andb_true_r. apply andb_true_iff.
    split; [apply Z.geb_le | apply Z.leb_le]; lia.
Qed.

Lemma consecutive_constraints_iff a :
  forallb (fun c => c a) (consecutive_constraints demand drivers) = true
  <-> window3 demand drivers (fun j i => Value a (shifts j i))
      /\ window5 demand drivers (fun j i => Value a (shifts j i)).
Proof.
  unfold consecutive_constraints, window3, window5.
  rewrite forallb_posted_per_driver. unfold slots.
  split.
  - intros H. split; intros j i Hj Hi; specialize (H j Hj);
      rewrite forallb_app in H; apply andb_true_iff in H as [H3 H5].
    + rewrite forallb_posted in H3. apply Max_IsEqual, H3. lia.
    + rewrite forallb_posted in H5. apply Max_IsEqual, H5. lia.
  - intros [H3 H5] j Hj. rewrite forallb_app. apply andb_true_iff.
    split; apply forallb_posted; intros i Hi; apply Max_IsEqual.
    + apply H3; [exact Hj | lia].
    + apply H5; [exact Hj | lia].
Qed.

(** The posted constraints hold exactly when the three families hold. *)
Lemma feasible_iff a :
  feasible demand drivers a = true
  <-> satisfies demand drivers (fun j i => Value a (shifts j i)).
Proof.
  unfold feasible, constraints, satisfies.
  rewrite !forallb_app, !andb_true_iff.
  rewrite demand_constraints_iff, duration_constraints_iff, consecutive_constraints_iff.
  tauto.
Qed.

End Reflection.

(** ** Reading a reported schedule *)

Lemma nth_map_range {B : Type} (f : nat -> B) n i d :
  (i < Z.to_nat n)%nat -> nth i (map f (range n)) d = f i.
Proof.
  intros Hi. unfold range.
  rewrite (nth_indep _ d (f 0%nat)) by (rewrite length_map, length_seq; exact Hi).
  rewrite map_nth, seq_nth by exact Hi. reflexivity.
Qed.

Lemma Zsum_ext (f g : nat -> Z) n :
  (forall i, (i < Z.to_nat n)%nat -> f i = g i) ->
  Zsum (map f (range n)) = Zsum (map g (range n)).
Proof.
  intros H. f_equal. apply map_ext_in. intros i Hi. apply H, in_range, Hi.
Qed.

Section Reading.

Variable demand : list Z.
Variable drivers : Z.

Lemma entry_rows_of a j i :
  (j < Z.to_nat drivers)%nat -> (i < length demand)%nat ->
  entry (rows_of demand drivers a) j i = Value a (shifts j i).
Proof.
  intros Hj Hi. unfold entry, rows_of.
  rewrite nth_map_range by exact Hj.
  rewrite nth_map_range by (unfold slots; lia). reflexivity.
Qed.

(** The three families only read the entries of the schedule. *)
Lemma satisfies_ext (M M' : nat -> nat -> Z) :
  (forall j i, (j < Z.to_nat drivers)%nat -> (i < length demand)%nat -> M j i = M' j i) ->
  satisfies demand drivers M -> satisfies demand drivers M'.
Proof.
  intros E (Hc & Hd & H3 & H5). repeat split.
  - intros i Hi. rewrite <- (Zsum_ext (fun j => M j i)); [apply Hc, Hi|].
    intros j Hj. apply E; assumption.
  - rewrite <- (Zsum_ext (M j)); [apply Hd, H|].
    intros i Hi. apply E; [assumption | unfold slots in Hi; lia].
  - rewrite <- (Zsum_ext (M j)); [apply Hd, H|].
    intros i Hi. apply E; [assumption | unfold slots in Hi; lia].
  - intros j i Hj Hi. rewrite <- !E by (assumption || lia). apply H3; assumption.
  - intros j i Hj Hi. rewrite <- !E by (assumption || lia). apply H5; assumption.
Qed.

(** Where the first feasible leaf sits among the leaves. *)
Lemma first_feasible_Some l : forall t a,
  first_feasible demand drivers t l = Some a ->
  feasible demand drivers a = true
  /\ exists l1 l2, l = l1 ++ a :: l2
                   /\ (length l1 < t)%nat
                   /\ Forall (fun x => feasible demand drivers x = false) l1.
Proof.
  induction l as [|x l IH]; intros t a H.
  - destruct t; discriminate.
  - destruct t as [|t]; [discriminate|]. simpl in H.
    destruct (feasible demand drivers x) eqn:Hx.
    + injection H as <-. split; [exact Hx|].
      exists [], l. repeat split; simpl; [lia | constructor].
    + destruct (IH t a H) as (Ha & l1 & l2 & -> & Hlen & Hall).
      split; [exact Ha|].
      exists (x :: l1), l2. repeat split; simpl; [lia | constructor; assumption].
Qed.

Lemma first_feasible_None l : forall t,
  (length l <= t)%nat ->
  first_feasible demand drivers t l = None ->
  Forall (fun x => feasible demand drivers x = false) l.
Proof.
  induction l as [|x l IH]; intros t Ht H; [constructor|].
  destruct t as [|t]; simpl in Ht; [lia|]. simpl in H.
  destruct (feasible demand drivers x) eqn:Hx; [discriminate|].
  constructor; [exact Hx | apply (IH t); [lia | exact H]].
Qed.

Lemma first_feasible_infeasible l : forall t,
  Forall (fun x => feasible demand drivers x = false) l ->
  first_feasible demand drivers t l = None.
Proof.
  induction l as [|x l IH]; intros t H; destruct t as [|t]; try reflexivity.
  inversion H as [|? ? Hx Hl]; subst. simpl. rewrite Hx. apply IH, Hl.
Qed.

(** More time does not change a solution that was found. *)
Lemma first_feasible_mono l : forall t t' a,
  (t <= t')%nat ->
  first_feasible demand drivers t l = Some a ->
  first_feasible demand drivers t' l = Some a.
Proof.
  induction l as [|x l IH]; intros t t' a Ht H.
  - destruct t; discriminate.
  - destruct t as [|t]; [discriminate|].
    destruct t' as [|t']; [lia|]. simpl in *.
    destruct (feasible demand drivers x); [exact H|].
    apply (IH t); [lia | exact H].
Qed.

(** A [Solved] outcome reports the first feasible leaf of the second search. *)
Lemma Solved_inv t1 t2 A v c :
  optimize_shifts demand drivers t1 t2 = Solved A v c ->
  exists a,
    first_feasible demand drivers t2 (leaves (s_flat demand drivers) []) = Some a
    /\ A = rows_of demand drivers a
    /\ v = obj_var demand drivers a
    /\ c = 1%nat.
Proof.
  destruct (fits_int64_dec demand) as [Hfit | Hn];
    [|rewrite (optimize_shifts_raises demand drivers t1 t2 Hn); discriminate].
  rewrite (optimize_shifts_first_feasible demand drivers t1 t2 Hfit).
  destruct (first_feasible demand drivers t2 (leaves (s_flat demand drivers) []))
    as [a|]; [|discriminate].
  intros H. injection H as <- <- <-. exists a. auto.
Qed.

(** A [Solved] outcome means the model was built. *)
Lemma Solved_fits t1 t2 A v c :
  optimize_shifts demand drivers t1 t2 = Solved A v c -> fits_int64 demand.
Proof.
  destruct (fits_int64_dec demand) as [Hfit | Hn]; [intros _; exact Hfit|].
  rewrite (optimize_shifts_raises demand drivers t1 t2 Hn). discriminate.
Qed.

End Reading.

(** ** The order in which the search reaches complete bindings *)

Lemma lex_le_refl x : lex_le x x.
Proof. induction x; simpl; auto. Qed.

Lemma lex_le_prefix p x y : lex_le x y -> lex_le (p ++ x) (p ++ y).
Proof. intros H. induction p; simpl; auto. Qed.

Lemma values_combine vars : forall bits,
  length bits = length vars -> values (combine vars bits) = bits.
Proof.
  unfold values.
  induction vars as [|v vars IH]; intros [|b bits] H; simpl in *; try discriminate.
  - reflexivity.
  - f_equal. apply IH. lia.
Qed.

Lemma leaves_shape vars : forall bound a,
  In a (leaves vars bound) ->
  exists bits, a = bound ++ combine vars bits
               /\ length bits = length vars /\ Forall binary bits.
Proof.
  induction vars as [|v vars IH]; intros bound a H; simpl in H.
  - destruct H as [<-|[]]. exists []. rewrite app_nil_r. repeat split. constructor.
  - apply in_app_or in H as [H|H]; apply IH in H as (bits & -> & Hlen & Hbin).
    + exists (0 :: bits). rewrite <- app_assoc. simpl.
      repeat split; [lia | constructor; [left; reflexivity | exact Hbin]].
    + exists (1 :: bits). rewrite <- app_assoc. simpl.
      repeat split; [lia | constructor; [right; reflexivity | exact Hbin]].
Qed.

Lemma leaves_complete vars : forall bound bits,
  length bits = length vars -> Forall binary bits ->
  In (bound ++ combine vars bits) (leaves vars bound).
Proof.
  induction vars as [|v vars IH]; intros bound [|b bits] Hlen Hbin;
    simpl in *; try discriminate.
  - left. now rewrite app_nil_r.
  - inversion Hbin as [|? ? Hb Hbits]; subst. apply in_or_app.
    replace (bound ++ (v, b) :: combine vars bits)
      with ((bound ++ [(v, b)]) ++ combine vars bits)
      by (rewrite <- app_assoc; reflexivity).
    destruct Hb as [-> | ->]; [left | right]; apply IH; (lia || assumption).
Qed.

Lemma length_leaves vars : forall bound,
  length (leaves vars bound) = (2 ^ length vars)%nat.
Proof.
  induction vars as [|v vars IH]; intros bound; simpl; [reflexivity|].
  rewrite length_app, !IH. lia.
Qed.

Lemma ordered_app l1 : forall l2,
  ordered l1 -> ordered l2 ->
  (forall a b, In a l1 -> In b l2 -> lex_le (values a) (values b)) ->
  ordered (l1 ++ l2).
Proof.
  induction l1 as [|x l1 IH]; intros l2 H1 H2 H; simpl; [exact H2|].
  inversion H1 as [|? ? Hx Hl1]; subst. constructor.
  - apply Forall_app. split; [exact Hx|].
    apply Forall_forall. intros b Hb. apply H; [left; reflexivity | exact Hb].
  - apply IH; [exact Hl1 | exact H2 |].
    intros a b Ha Hb. apply H; [right; exact Ha | exact Hb].
Qed.

Lemma ordered_after l1 : forall a l2,
  ordered (l1 ++ a :: l2) -> Forall (fun b => lex_le (values a) (values b)) (a :: l2).
Proof.
  induction l1 as [|x l1 IH]; intros a l2 H; simpl in H;
    inversion H as [|? ? Hx Hl]; subst.
  - constructor; [apply lex_le_refl | exact Hx].
  - apply IH, Hl.
Qed.

(** Depth-first search with the smaller value first reaches the complete
    bindings in lexicographic order. *)
Lemma leaves_ordered vars : forall bound, ordered (leaves vars bound).
Proof.
  induction vars as [|v vars IH]; intros bound; simpl.
  - constructor; constructor.
  - apply ordered_app; [apply IH | apply IH |].
    intros a b Ha Hb.
    apply leaves_shape in Ha as (ba & -> & _ & _).
    apply leaves_shape in Hb as (bb & -> & _ & _).
    unfold values. rewrite <- !app_assoc, !map_app.
    apply lex_le_prefix. simpl. left. lia.
Qed.

(** ** The variables of [s_flat] and their values in a leaf *)

Lemma IntVar_eqb_eq u v : IntVar_eqb u v = true <-> u = v.
Proof.
  destruct u as [j i], v as [j' i']. unfold IntVar_eqb. simpl.
  rewrite andb_true_iff, !Nat.eqb_eq. split.
  - intros [-> ->]. reflexivity.
  - intros H. injection H as -> ->. auto.
Qed.

Lemma Value_head v x rest : Value ((v, x) :: rest) v = x.
Proof.
  simpl. destruct (IntVar_eqb v v) eqn:E; [reflexivity|].
  assert (IntVar_eqb v v = true) by (apply IntVar_eqb_eq; reflexivity). congruence.
Qed.

Lemma Value_tail v u x rest : v <> u -> Value ((v, x) :: rest) u = Value rest u.
Proof.
  intros Hne. simpl. destruct (IntVar_eqb v u) eqn:E; [|reflexivity].
  apply IntVar_eqb_eq in E. contradiction.
Qed.

(** Each variable is bound once: a leaf gives back the values it was built from. *)
Lemma Value_combine vars :
  NoDup vars -> forall bits,
  length bits = length vars -> map (Value (combine vars bits)) vars = bits.
Proof.
  induction 1 as [|v vars Hnin Hnd IH]; intros [|b bits] Hlen;
    simpl in Hlen; try discriminate; [reflexivity|].
  cbn [combine map]. rewrite Value_head. f_equal.
  rewrite <- (IH bits) at 2 by lia.
  apply map_ext_in. intros u Hu. apply Value_tail.
  intros ->. contradiction.
Qed.

Lemma per_driver_NoDup (l : list nat) : NoDup l -> forall js, NoDup js ->
  NoDup (flat_map (fun j => map (fun i => shifts j i) l) js).
Proof.
  intros Hl. induction 1 as [|j js Hnin Hnd IH]; simpl; [constructor|].
  apply NoDup_app.
  - apply NoDup_map_NoDup_ForallPairs; [|exact Hl].
    intros x y _ _ E. unfold shifts in E. congruence.
  - exact IH.
  - intros [j' i'] H1 H2.
    apply in_map_iff in H1 as (i & E & _).
    apply in_flat_map in H2 as (k & Hk & H2).
    apply in_map_iff in H2 as (i2 & E2 & _).
    unfold shifts in *. congruence.
Qed.

Lemma s_flat_NoDup demand drivers : NoDup (s_flat demand drivers).
Proof. apply per_driver_NoDup; apply seq_NoDup. Qed.

(** The printed rows, read row after row, are the values of [s_flat]. *)
Lemma concat_rows_of demand drivers a :
  concat (rows_of demand drivers a) = map (Value a) (s_flat demand drivers).
Proof.
  unfold rows_of, s_flat.
  induction (range drivers) as [|j js IH]; simpl; [reflexivity|].
  rewrite map_app, map_map, IH. reflexivity.
Qed.

Lemma concat_rows_of_leaf demand drivers bits :
  length bits = length (s_flat demand drivers) ->
  concat (rows_of demand drivers (combine (s_flat demand drivers) bits)) = bits.
Proof.
  intros Hlen. rewrite concat_rows_of. apply Value_combine; [apply s_flat_NoDup | exact Hlen].
Qed.

(** ** Sums *)

Lemma Zsum_app l1 l2 : Zsum (l1 ++ l2) = Zsum l1 + Zsum l2.
Proof. unfold Zsum. induction l1; simpl; lia. Qed.

Lemma Zsum_concat (A : list (list Z)) : Zsum (concat A) = Zsum (map Zsum A).
Proof.
  induction A as [|r A IH]; simpl; [reflexivity|].
  rewrite Zsum_app, IH. reflexivity.
Qed.

Lemma Zsum_lower {B : Type} (f : B -> Z) (c : Z) (l : list B) :
  (forall x, In x l -> c <= f x) -> c * Z.of_nat (length l) <= Zsum (map f l).
Proof.
  induction l as [|x l IH]; intros H; simpl length; simpl map.
  - simpl. lia.
  - change (Zsum (f x :: map f l)) with (f x + Zsum (map f l)).
    assert (c <= f x) by (apply H; left; reflexivity).
    assert (c * Z.of_nat (length l) <= Zsum (map f l))
      by (apply IH; intros y Hy; apply H; right; exact Hy).
    lia.
Qed.

Lemma Zsum_upper {B : Type} (f : B -> Z) (c : Z) (l : list B) :
  (forall x, In x l -> f x <= c) -> Zsum (map f l) <= c * Z.of_nat (length l).
Proof.
  induction l as [|x l IH]; intros H; simpl length; simpl map.
  - simpl. lia.
  - change (Zsum (f x :: map f l)) with (f x + Zsum (map f l)).
    assert (f x <= c) by (apply H; left; reflexivity).
    assert (Zsum (map f l) <= c * Z.of_nat (length l))
      by (apply IH; intros y Hy; apply H; right; exact Hy).
    lia.
Qed.

Lemma Zsum_pointwise {B : Type} (f g : B -> Z) (l : list B) :
  (forall x, In x l -> f x <= g x) -> Zsum (map f l) <= Zsum (map g l).
Proof.
  induction l as [|x l IH]; intros H; simpl; [lia|].
  assert (f x <= g x) by (apply H; left; reflexivity).
  assert (Zsum (map f l) <= Zsum (map g l))
    by (apply IH; intros y Hy; apply H; right; exact Hy).
  unfold Zsum in *. lia.
Qed.

Lemma Zsum_add {B : Type} (f g : B -> Z) (l : list B) :
  Zsum (map (fun x => f x + g x) l) = Zsum (map f l) + Zsum (map g l).
Proof. induction l as [|x l IH]; simpl; [reflexivity|]. unfold Zsum in *. lia. Qed.

(** Summing by rows or by columns. *)
Lemma Zsum_swap (M : nat -> nat -> Z) (J I : list nat) :
  Zsum (map (fun j => Zsum (map (fun i => M j i) I)) J)
  = Zsum (map (fun i => Zsum (map (fun j => M j i) J)) I).
Proof.
  induction J as [|j J IH]; simpl.
  - induction I as [|i I IHI]; simpl; [reflexivity|]. rewrite <- IHI. reflexivity.
  - rewrite IH. change (Zsum (map (fun i => M j i) I)
                        + Zsum (map (fun i => Zsum (map (fun j0 => M j0 i) J)) I)
                        = Zsum (map (fun i => M j i + Zsum (map (fun j0 => M j0 i) J)) I)).
    rewrite (Zsum_add (fun i => M j i)). reflexivity.
Qed.

(** [sum(demand)] as a sum over [range(slots)]. *)
Lemma Zsum_by_index (l : list Z) :
  Zsum l = Zsum (map (fun i => nth i l 0) (seq 0 (length l))).
Proof.
  induction l as [|x l IH]; simpl; [reflexivity|].
  rewrite <- seq_shift, map_map. simpl. rewrite <- IH. reflexivity.
Qed.

Section Objective.

Variable demand : list Z.
Variable drivers : Z.

Lemma obj_var_concat a :
  obj_var demand drivers a = Zsum (concat (rows_of demand drivers a)).
Proof. rewrite concat_rows_of. reflexivity. Qed.

Lemma obj_var_by_rows a :
  obj_var demand drivers a
  = Zsum (map (fun j => Zsum (map (fun i => Value a (shifts j i)) (range (slots demand))))
              (range drivers)).
Proof.
  rewrite obj_var_concat, Zsum_concat. unfold rows_of. rewrite map_map. reflexivity.
Qed.

(** The minimum duration bounds the objective from below. *)
Lemma duration_lower_bound a :
  feasible demand drivers a = true -> 4 * drivers <= obj_var demand drivers a.
Proof.
  intros Hf. apply feasible_iff in Hf as (_ & Hd & _).
  rewrite obj_var_by_rows.
  pose proof (Zsum_lower
                (fun j => Zsum (map (fun i => Value a (shifts j i)) (range (slots demand))))
                4 (range drivers)) as H.
  rewrite length_range in H.
  assert (4 * drivers <= 4 * Z.of_nat (Z.to_nat drivers)) by lia.
  etransitivity; [eassumption|]. apply H.
  intros j Hj. apply in_range in Hj. apply (Hd j Hj).
Qed.

(** The demand bounds the objective from below. *)
Lemma coverage_lower_bound a :
  feasible demand drivers a = true -> Zsum demand <= obj_var demand drivers a.
Proof.
  intros Hf. apply feasible_iff in Hf as (Hc & _).
  rewrite obj_var_by_rows, Zsum_swap, (Zsum_by_index demand).
  unfold slots, range at 2. rewrite Nat2Z.id.
  apply Zsum_pointwise. intros i Hi. apply in_seq in Hi. apply Hc. lia.
Qed.

End Objective.

(** ** Properties of the reported schedule *)

(** A [Solved] outcome reports a leaf of the search tree. *)
Lemma Solved_leaf demand drivers t1 t2 A v c :
  optimize_shifts demand drivers t1 t2 = Solved A v c ->
  exists bits l1 l2,
    leaves (s_flat demand drivers) [] = l1 ++ combine (s_flat demand drivers) bits :: l2
    /\ Forall (fun x => feasible demand drivers x = false) l1
    /\ feasible_complete demand drivers bits
    /\ A = rows_of demand drivers (combine (s_flat demand drivers) bits)
    /\ concat A = bits
    /\ v = obj_var demand drivers (combine (s_flat demand drivers) bits)
    /\ c = 1%nat.
Proof.
  intros H. apply Solved_inv in H as (a & Hff & -> & -> & ->).
  apply first_feasible_Some in Hff as (Hfa & l1 & l2 & Hl & _ & Hl1).
  assert (In a (leaves (s_flat demand drivers) [])) as Hin
      by (rewrite Hl; apply in_or_app; right; left; reflexivity).
  apply leaves_shape in Hin as (bits & Ha & Hlen & Hbin). simpl in Ha. subst a.
  exists bits, l1, l2. repeat split; try assumption.
  apply concat_rows_of_leaf, Hlen.
Qed.

(** C1.  Every assignment reported in a [Solved] outcome satisfies the three
    posted constraint families: each slot is covered by at least its demand,
    each driver's row sum lies between 4 and 10, and in each row every
    3-slot window and every 5-slot window of stride 2 satisfies its
    disjunction of equalities.  No assumption on the demand, the number of
    drivers or the time limits is needed. *)
Theorem solved_satisfies_constraints demand drivers t1 t2 A v c :
  optimize_shifts demand drivers t1 t2 = Solved A v c ->
  coverage demand drivers (entry A)
  /\ duration_bounds demand drivers (entry A)
  /\ window3 demand drivers (entry A)
  /\ window5 demand drivers (entry A).
Proof.
  intros H. apply Solved_inv in H as (a & Hff & -> & _ & _).
  apply first_feasible_Some in Hff as (Hfa & _).
  apply feasible_iff in Hfa.
  apply (satisfies_ext demand drivers (fun j i => Value a (shifts j i))); [|exact Hfa].
  intros j i Hj Hi. symmetry. apply entry_rows_of; assumption.
Qed.

Lemma solved_satisfies_constraints_witness :
  optimize_shifts [0;0;0;0;0] 1 32 32 = Solved [[0;1;1;1;1]] 4 1
  /\ coverage [0;0;0;0;0] 1 (entry [[0;1;1;1;1]])
  /\ duration_bounds [0;0;0;0;0] 1 (entry [[0;1;1;1;1]])
  /\ window3 [0;0;0;0;0] 1 (entry [[0;1;1;1;1]])
  /\ window5 [0;0;0;0;0] 1 (entry [[0;1;1;1;1]]).
Proof.
  assert (H : optimize_shifts [0;0;0;0;0] 1 32 32 = Solved [[0;1;1;1;1]] 4 1)
    by (vm_compute; reflexivity).
  split; [exact H|].
  exact (solved_satisfies_constraints [0;0;0;0;0] 1 32 32 [[0;1;1;1;1]] 4 1 H).
Defined.

(** C5.  The objective value reported in a [Solved] outcome is the sum of all
    entries of the reported assignment: the sum of the rows read one after
    the other, which is the sum over drivers [j] and slots [i] of entry
    [A[j][i]]. *)
Theorem objective_is_sum_of_entries demand drivers t1 t2 A v c :
  optimize_shifts demand drivers t1 t2 = Solved A v c ->
  v = Zsum (concat A)
  /\ v = Zsum (map (fun j => Zsum (map (fun i => entry A j i) (range (slots demand))))
                  (range drivers)).
Proof.
  intros H. apply Solved_inv in H as (a & _ & -> & -> & _). split.
  - apply obj_var_concat.
  - rewrite obj_var_by_rows. apply Zsum_ext. intros j Hj.
    apply Zsum_ext. intros i Hi. symmetry.
    apply entry_rows_of; [exact Hj | unfold slots in Hi; lia].
Qed.

Lemma objective_is_sum_of_entries_witness :
  optimize_shifts [0;0;0;0;0] 1 32 32 = Solved [[0;1;1;1;1]] 4 1
  /\ 4 = Zsum (concat [[0;1;1;1;1]])
  /\ 4 = Zsum (map (fun j => Zsum (map (fun i => entry [[0;1;1;1;1]] j i)
                                       (range (slots [0;0;0;0;0]))))
                   (range 1)).
Proof.
  assert (H : optimize_shifts [0;0;0;0;0] 1 32 32 = Solved [[0;1;1;1;1]] 4 1)
    by (vm_compute; reflexivity).
  split; [exact H|].
  exact (objective_is_sum_of_entries [0;0;0;0;0] 1 32 32 [[0;1;1;1;1]] 4 1 H).
Defined.

(** C4.  The assignment reported in a [Solved] outcome, read in row-major
    order, is a feasible complete assignment and is lexicographically below
    every feasible complete assignment, with 0 before 1.  Feasibility does
    not mention the objective, so neither does the reported assignment. *)
Theorem solved_is_lexicographically_first demand drivers t1 t2 A v c :
  optimize_shifts demand drivers t1 t2 = Solved A v c ->
  feasible_complete demand drivers (concat A)
  /\ forall bits, feasible_complete demand drivers bits -> lex_le (concat A) bits.
Proof.
  intros H.
  apply Solved_leaf in H as (bitsA & l1 & l2 & Hl & Hl1 & HA & _ & -> & _ & _).
  split; [exact HA|].
  intros bits (Hlen & Hbin & Hfeas).
  pose proof (leaves_complete (s_flat demand drivers) [] bits Hlen Hbin) as Hin.
  simpl in Hin. rewrite Hl in Hin.
  pose proof (leaves_ordered (s_flat demand drivers) []) as Hord.
  rewrite Hl in Hord. apply ordered_after in Hord.
  rewrite Forall_forall in Hord.
  apply in_app_or in Hin as [Hin | Hin].
  - rewrite Forall_forall in Hl1. specialize (Hl1 _ Hin). congruence.
  - specialize (Hord _ Hin).
    destruct HA as (HlenA & _ & _).
    rewrite !values_combine in Hord by assumption. exact Hord.
Qed.

Lemma solved_is_lexicographically_first_witness :
  optimize_shifts [0;0;0;0;0] 1 32 32 = Solved [[0;1;1;1;1]] 4 1
  /\ feasible_complete [0;0;0;0;0] 1 (concat [[0;1;1;1;1]])
  /\ forall bits, feasible_complete [0;0;0;0;0] 1 bits
                  -> lex_le (concat [[0;1;1;1;1]]) bits.
Proof.
  assert (H : optimize_shifts [0;0;0;0;0] 1 32 32 = Solved [[0;1;1;1;1]] 4 1)
    by (vm_compute; reflexivity).
  split; [exact H|].
  exact (solved_is_lexicographically_first [0;0;0;0;0] 1 32 32 [[0;1;1;1;1]] 4 1 H).
Defined.

Lemma first_feasible_enough demand drivers l : forall t t',
  (length l <= t)%nat -> (length l <= t')%nat ->
  first_feasible demand drivers t l = first_feasible demand drivers t' l.
Proof.
  induction l as [|x l IH]; intros t t' Ht Ht'.
  - destruct t, t'; reflexivity.
  - simpl in Ht, Ht'. destruct t as [|t]; [lia|]. destruct t' as [|t']; [lia|].
    simpl. destruct (feasible demand drivers x); [reflexivity|].
    apply IH; lia.
Qed.

(** C9.  Two runs on the same demand and driver count, each with its own
    time limits, report the same objective value as soon as the limit of
    the second search of each run lets it go through the whole search
    tree. *)
Theorem same_objective_on_rerun demand drivers t1 t2 t1' t2' :
  (2 ^ length (s_flat demand drivers) <= t2)%nat ->
  (2 ^ length (s_flat demand drivers) <= t2')%nat ->
  objective_of (optimize_shifts demand drivers t1 t2)
  = objective_of (optimize_shifts demand drivers t1' t2').
Proof.
  intros H H'.
  destruct (fits_int64_dec demand) as [Hfit | Hn];
    [|rewrite !(optimize_shifts_raises demand drivers) by exact Hn; reflexivity].
  rewrite !(optimize_shifts_first_feasible demand drivers) by exact Hfit.
  rewrite (first_feasible_enough demand drivers _ t2 t2');
    [reflexivity | |]; rewrite length_leaves; assumption.
Qed.

Lemma same_objective_on_rerun_witness :
  (2 ^ length (s_flat [0;0;0;0;0]%Z 1%Z) <= 32)%nat
  /\ (2 ^ length (s_flat [0;0;0;0;0]%Z 1%Z) <= 40)%nat
  /\ objective_of (optimize_shifts [0;0;0;0;0] 1 3 32)
     = objective_of (optimize_shifts [0;0;0;0;0] 1 50 40).
Proof.
  assert (H1 : (2 ^ length (s_flat [0;0;0;0;0]%Z 1%Z) <= 32)%nat) by (vm_compute; lia).
  assert (H2 : (2 ^ length (s_flat [0;0;0;0;0]%Z 1%Z) <= 40)%nat) by (vm_compute; lia).
  split; [exact H1 | split; [exact H2|]].
  exact (same_objective_on_rerun [0;0;0;0;0] 1 3 32 50 40 H1 H2).
Defined.

Lemma Zsum_zero {B : Type} (l : list B) : Zsum (map (fun _ => 0) l) = 0.
Proof. induction l as [|x l IH]; simpl; [reflexivity|]. exact IH. Qed.

Lemma objective_is_sum_zero demand drivers t1 t2 A v c :
  optimize_shifts demand drivers t1 t2 = Solved A v c ->
  (forall j i, entry A j i = 0) -> v = 0.
Proof.
  intros H Hzero. apply Solved_inv in H as (a & _ & -> & -> & _).
  rewrite obj_var_by_rows.
  rewrite (Zsum_ext _ (fun _ => 0)); [apply Zsum_zero|].
  intros j Hj. rewrite (Zsum_ext _ (fun _ => 0)); [apply Zsum_zero|].
  intros i Hi. rewrite <- (entry_rows_of demand drivers a j i);
    [apply Hzero | exact Hj | unfold slots in Hi; lia].
Qed.

(** C10.  With at least one driver, every assignment that satisfies the
    posted constraints has objective value at least [4 * drivers], whatever
    the demand; so has every [Solved] outcome, whose assignment is therefore
    never all zero. *)
Theorem objective_at_least_four_per_driver demand drivers :
  1 <= drivers ->
  (forall a, feasible demand drivers a = true -> 4 * drivers <= obj_var demand drivers a)
  /\ (forall t1 t2 A v c,
        optimize_shifts demand drivers t1 t2 = Solved A v c ->
        4 * drivers <= v /\ ~ (forall j i, entry A j i = 0)).
Proof.
  intros Hd. split; [intros a; apply duration_lower_bound|].
  intros t1 t2 A v c H.
  assert (4 * drivers <= v) as Hv.
  { apply Solved_inv in H as (a & Hff & _ & -> & _).
    apply first_feasible_Some in Hff as (Hfa & _).
    apply duration_lower_bound, Hfa. }
  split; [exact Hv|]. intros Hzero.
  apply objective_is_sum_zero in H; [lia | exact Hzero].
Qed.

Lemma objective_at_least_four_per_driver_witness :
  1 <= 1
  /\ (forall a, feasible [0;0;0;0;0] 1 a = true -> 4 * 1 <= obj_var [0;0;0;0;0] 1 a)
  /\ (forall t1 t2 A v c,
        optimize_shifts [0;0;0;0;0] 1 t1 t2 = Solved A v c ->
        4 * 1 <= v /\ ~ (forall j i, entry A j i = 0)).
Proof.
  assert (H : 1 <= 1) by lia.
  split; [exact H|]. exact (objective_at_least_four_per_driver [0;0;0;0;0] 1 H).
Defined.

(** ** Inputs that no check rejects *)

Lemma Value_at_most_1 (a : Assignment) v :
  Forall binary (values a) -> Value a v <= 1.
Proof.
  unfold values. induction a as [|[u x] a IH]; intros H; simpl; [lia|].
  inversion H as [|? ? Hx Ha]; subst.
  destruct (IntVar_eqb u v); [destruct Hx; simpl in *; lia | apply IH, Ha].
Qed.

(** A slot that asks for more drivers than there are makes every leaf
    infeasible. *)
Lemma excess_demand_infeasible demand drivers d a :
  0 <= drivers -> In d demand -> drivers < d ->
  In a (leaves (s_flat demand drivers) []) ->
  feasible demand drivers a = false.
Proof.
  intros Hd Hin Hlt Ha.
  apply leaves_shape in Ha as (bits & -> & Hlen & Hbin). simpl.
  destruct (feasible demand drivers (combine (s_flat demand drivers) bits)) eqn:E;
    [exfalso | reflexivity].
  apply feasible_iff in E as (Hc & _).
  apply (In_nth _ _ 0) in Hin as (i & Hi & Hnth).
  specialize (Hc i Hi). rewrite Hnth in Hc.
  pose proof (Zsum_upper
                (fun j => Value (combine (s_flat demand drivers) bits) (shifts j i))
                1 (range drivers)) as Hup.
  rewrite length_range in Hup.
  assert (Zsum (map (fun j => Value (combine (s_flat demand drivers) bits) (shifts j i))
                    (range drivers)) <= 1 * Z.of_nat (Z.to_nat drivers)) as Hle.
  { apply Hup. intros j _. apply Value_at_most_1.
    rewrite values_combine by exact Hlen. exact Hbin. }
  lia.
Qed.

(** C7, as amended.  The model-building step checks neither the driver
    count, nor the number of slots, nor the sign of the demand, and never
    fails with [InvalidInput].  It fails, with [TypeError] and before any
    search starts, exactly when some demand value is not a signed 64-bit
    integer.  When every demand value is one, the model is built and
    searched whatever the driver count, the number of slots and the signs,
    and the outcome is [Solved] or [NoSolutionFound]; a demand value above a
    non-negative driver count is then not rejected either: the search finds
    no feasible assignment and the outcome is [NoSolutionFound]. *)
Theorem only_the_size_of_demand_is_checked demand drivers t1 t2 :
  (optimize_shifts demand drivers t1 t2 = Raised TypeError
   <-> exists d, In d demand /\ ~ (- 2 ^ 63 <= d <= 2 ^ 63 - 1))
  /\ optimize_shifts demand drivers t1 t2 <> Raised InvalidInput
  /\ (fits_int64 demand ->
      (exists A v c, optimize_shifts demand drivers t1 t2 = Solved A v c)
      \/ optimize_shifts demand drivers t1 t2 = NoSolutionFound)
  /\ (fits_int64 demand -> 0 <= drivers -> (exists d, In d demand /\ drivers < d) ->
      optimize_shifts demand drivers t1 t2 = NoSolutionFound).
Proof.
  split; [|split; [|split]].
  - split.
    + intros H. destruct (fits_int64_cases demand) as [Hfit | Hout]; [|exact Hout].
      rewrite (optimize_shifts_first_feasible demand drivers t1 t2 Hfit) in H.
      destruct (first_feasible demand drivers t2 (leaves (s_flat demand drivers) []));
        discriminate.
    + intros (d & Hd & Hout). apply optimize_shifts_raises.
      intros Hfit. apply Hout, Hfit, Hd.
  - destruct (fits_int64_dec demand) as [Hfit | Hn].
    + rewrite (optimize_shifts_first_feasible demand drivers t1 t2 Hfit).
      destruct (first_feasible demand drivers t2 (leaves (s_flat demand drivers) []));
        discriminate.
    + rewrite (optimize_shifts_raises demand drivers t1 t2 Hn). discriminate.
  - intros Hfit. rewrite (optimize_shifts_first_feasible demand drivers t1 t2 Hfit).
    destruct (first_feasible demand drivers t2 (leaves (s_flat demand drivers) []));
      [left; eauto | right; reflexivity].
  - intros Hfit Hd (d & Hin & Hlt).
    rewrite (optimize_shifts_first_feasible demand drivers t1 t2 Hfit).
    rewrite first_feasible_infeasible; [reflexivity|].
    apply Forall_forall. intros a Ha.
    apply (excess_demand_infeasible demand drivers d); assumption.
Qed.

Lemma only_the_size_of_demand_is_checked_witness :
  fits_int64 [5] /\ 0 <= 2 /\ (exists d, In d [5] /\ 2 < d)
  /\ optimize_shifts [5] 2 4 4 = NoSolutionFound.
Proof.
  assert (Hf : fits_int64 [5]) by (intros d [<- | []]; lia).
  assert (H0 : 0 <= 2) by lia.
  assert (H1 : exists d, In d [5] /\ 2 < d)
    by (exists 5; split; [left; reflexivity | lia]).
  split; [exact Hf | split; [exact H0 | split; [exact H1|]]].
  exact (proj2 (proj2 (proj2 (only_the_size_of_demand_is_checked [5] 2 4 4)))
               Hf H0 H1).
Defined.

(** C7, as stated, fails: with no driver, with an empty demand and with a
    negative demand value the call goes through both searches and reports
    [Solved] or [NoSolutionFound]; it does not fail with [InvalidInput]. *)
Lemma invalid_input_reaches_the_search :
  (0 <= 0 /\ optimize_shifts [0] 0 1 1 = Solved [] 0 1)
  /\ (slots [] <= 0 /\ optimize_shifts [] 1 1 1 = NoSolutionFound)
  /\ (In (-1) [-1;0;0;0] /\ optimize_shifts [-1;0;0;0] 1 16 16 = Solved [[1;1;1;1]] 4 1)
  /\ ~ (forall demand drivers t1 t2,
          drivers <= 0 \/ slots demand <= 0 \/ (exists d, In d demand /\ d < 0) ->
          optimize_shifts demand drivers t1 t2 = Raised InvalidInput).
Proof.
  split; [|split; [|split]].
  - split; [lia | vm_compute; reflexivity].
  - split; [unfold slots; simpl; lia | vm_compute; reflexivity].
  - split; [left; reflexivity | vm_compute; reflexivity].
  - intros H.
    assert (optimize_shifts [0] 0 1 1 = Raised InvalidInput) as E
        by (apply H; left; lia).
    vm_compute in E. discriminate.
Qed.

(** ** Concrete schedules *)

Lemma demand8_fits : fits_int64 demand8.
Proof. apply fits_int64_forallb. vm_compute. reflexivity. Qed.

Lemma demand8_first_feasible :
  first_feasible demand8 2 4081 (leaves (s_flat demand8 2) [])
  = Some (combine (s_flat demand8 2) [0;0;0;0;1;1;1;1;1;1;1;1;0;0;0;0]).
Proof. vm_compute. reflexivity. Qed.

(** C8.  For [demand = [1,1,1,1,1,1,1,1]] and two drivers, once the second
    search has the time to reach its 4081st complete binding, the outcome is
    [Solved]: driver 0 works slots 4 to 7 and driver 1 works slots 0 to 3,
    each a single block of between 4 and 8 slots; every slot has at least
    one driver; the objective value is at most 16, equals [sum(demand) = 8],
    and no assignment that satisfies the constraints has a smaller one. *)
Theorem eight_slots_two_drivers t1 t2 :
  (4081 <= t2)%nat ->
  let A := [[0;0;0;0;1;1;1;1]; [1;1;1;1;0;0;0;0]] in
  optimize_shifts demand8 2 t1 t2 = Solved A 8 1
  /\ (forall row, In row A ->
        exists s k e, block row s k e /\ (4 <= k <= 8)%nat)
  /\ (forall i, (i < 8)%nat -> 1 <= Zsum (map (fun j => entry A j i) (range 2)))
  /\ 8 <= 16
  /\ 8 = Zsum demand8
  /\ (forall a, feasible demand8 2 a = true -> 8 <= obj_var demand8 2 a).
Proof.
  intros Ht A. split; [|split; [|split; [|split; [|split]]]].
  - rewrite (optimize_shifts_first_feasible demand8 2 t1 t2 demand8_fits).
    rewrite (first_feasible_mono demand8 2 _ 4081 t2 _ Ht demand8_first_feasible).
    vm_compute. reflexivity.
  - intros row [<- | [<- | []]].
    + exists 4%nat, 4%nat, 0%nat. split; [reflexivity | lia].
    + exists 0%nat, 4%nat, 4%nat. split; [reflexivity | lia].
  - intros i Hi.
    do 8 (destruct i as [|i]; [vm_compute; discriminate|]). lia.
  - lia.
  - reflexivity.
  - intros a Ha. change 8 with (Zsum demand8). apply coverage_lower_bound, Ha.
Qed.

Lemma eight_slots_two_drivers_witness :
  (4081 <= 5000)%nat
  /\ optimize_shifts demand8 2 5000 5000
     = Solved [[0;0;0;0;1;1;1;1]; [1;1;1;1;0;0;0;0]] 8 1.
Proof.
  assert (H : (4081 <= 5000)%nat) by lia.
  split; [exact H|].
  exact (proj1 (eight_slots_two_drivers 5000 5000 H)).
Defined.

(** C3.  For [demand = [1,1,0,0,0,0,1,1]] and one driver the reported row
    is [[1,1,0,0,0,0,1,1]]: it satisfies every posted window constraint and
    is not a single block. *)
Lemma reported_shift_has_a_gap :
  optimize_shifts [1;1;0;0;0;0;1;1] 1 256 256 = Solved [[1;1;0;0;0;0;1;1]] 4 1
  /\ ~ single_block [1;1;0;0;0;0;1;1].
Proof.
  split; [vm_compute; reflexivity|].
  intros (s & k & e & H). unfold block in H.
  destruct s as [|s]; [|discriminate]. simpl in H.
  destruct k as [|[|[|k]]]; simpl in H.
  - destruct e; discriminate.
  - destruct e; discriminate.
  - injection H as H.
    do 5 (destruct e as [|e]; [discriminate|]; simpl in H; injection H as H).
    destruct e; discriminate.
  - discriminate.
Qed.

(** C2.  For [demand = [0,1,0,0,0,0,0,1]] and one driver, with both searches
    run to the end, the reported objective value is 7, and the first search
    has accepted an assignment with objective value 4. *)
Lemma reported_objective_is_not_the_minimum :
  optimize_shifts demand_far 1 256 256 = Solved [[0;1;1;1;1;1;1;1]] 7 1
  /\ exists a,
       In a (found_during_run demand_far 1 256 256)
       /\ feasible demand_far 1 a = true
       /\ values a = [1;1;0;0;0;0;1;1]
       /\ obj_var demand_far 1 a = 4.
Proof.
  split; [vm_compute; reflexivity|].
  exists (combine (s_flat demand_far 1) [1;1;0;0;0;0;1;1]).
  split; [|split; [|split]]; try (vm_compute; reflexivity).
  vm_compute. right. left. reflexivity.
Qed.

(** C6.  On the same input the reported solution count is 1, while the two
    searches have accepted three complete assignments, two of them
    distinct. *)
Lemma solution_count_is_not_the_number_found :
  optimize_shifts demand_far 1 256 256 = Solved [[0;1;1;1;1;1;1;1]] 7 1
  /\ map values (accepted (first_search demand_far 1 256))
     = [[0;1;1;1;1;1;1;1]; [1;1;0;0;0;0;1;1]]
  /\ map values (accepted (second_search demand_far 1 256 256))
     = [[0;1;1;1;1;1;1;1]]
  /\ length (found_during_run demand_far 1 256 256) = 3%nat.
Proof. repeat split; vm_compute; reflexivity. Qed.

(** ** Further properties of the outcome *)

Lemma Value_binary (a : Assignment) v : Forall binary (values a) -> binary (Value a v).
Proof.
  unfold values. induction a as [|[u x] a IH]; intros H; simpl; [left; reflexivity|].
  inversion H as [|? ? Hx Ha]; subst.
  destruct (IntVar_eqb u v); [exact Hx | apply IH, Ha].
Qed.

Lemma Solved_satisfies demand drivers t1 t2 A v c :
  optimize_shifts demand drivers t1 t2 = Solved A v c ->
  satisfies demand drivers (entry A).
Proof.
  intros H. apply Solved_inv in H as (a & Hff & -> & _ & _).
  apply first_feasible_Some in Hff as (Hfa & _). apply feasible_iff in Hfa.
  apply (satisfies_ext demand drivers (fun j i => Value a (shifts j i))); [|exact Hfa].
  intros j i Hj Hi. symmetry. apply entry_rows_of; assumption.
Qed.

(** The reported matrix has one row per driver and one 0/1 entry per slot. *)
Theorem solved_shape demand drivers t1 t2 A v c :
  optimize_shifts demand drivers t1 t2 = Solved A v c ->
  length A = Z.to_nat drivers
  /\ forall row, In row A -> length row = length demand /\ Forall binary row.
Proof.
  intros H.
  apply Solved_leaf in H as (bits & l1 & l2 & _ & _ & (Hlen & Hbin & _) & -> & _).
  unfold rows_of. split; [rewrite length_map; apply length_range|].
  intros row Hrow. apply in_map_iff in Hrow as (j & <- & _). split.
  - rewrite length_map, length_range. unfold slots. apply Nat2Z.id.
  - apply Forall_forall. intros x Hx. apply in_map_iff in Hx as (i & <- & _).
    apply Value_binary. rewrite values_combine by exact Hlen. exact Hbin.
Qed.

Lemma solved_shape_witness :
  optimize_shifts [0;0;0;0;0] 1 32 32 = Solved [[0;1;1;1;1]] 4 1
  /\ length [[0;1;1;1;1]] = Z.to_nat 1
  /\ forall row, In row [[0;1;1;1;1]] ->
       length row = length [0;0;0;0;0]%Z /\ Forall binary row.
Proof.
  assert (H : optimize_shifts [0;0;0;0;0] 1 32 32 = Solved [[0;1;1;1;1]] 4 1)
    by (vm_compute; reflexivity).
  split; [exact H|].
  exact (solved_shape [0;0;0;0;0] 1 32 32 [[0;1;1;1;1]] 4 1 H).
Defined.

(** Whatever the input and the time limits, a [Solved] outcome reports a
    solution count of 1. *)
Theorem solved_count_is_one demand drivers t1 t2 A v c :
  optimize_shifts demand drivers t1 t2 = Solved A v c -> c = 1%nat.
Proof. intros H. apply Solved_inv in H as (a & _ & _ & _ & Hc). exact Hc. Qed.

Lemma solved_count_is_one_witness :
  optimize_shifts [0;0;0;0;0] 1 32 32 = Solved [[0;1;1;1;1]] 4 1 /\ 1%nat = 1%nat.
Proof.
  assert (H : optimize_shifts [0;0;0;0;0] 1 32 32 = Solved [[0;1;1;1;1]] 4 1)
    by (vm_compute; reflexivity).
  split; [exact H|].
  exact (solved_count_is_one [0;0;0;0;0] 1 32 32 [[0;1;1;1;1]] 4 1 H).
Defined.

(** When every demand value is a signed 64-bit integer and the second
    search has the time to go through the whole tree, the outcome is
    [Solved] exactly when some complete 0/1 assignment satisfies the posted
    constraints, and [NoSolutionFound] exactly when none does. *)
Theorem solved_iff_satisfiable demand drivers t1 t2 :
  fits_int64 demand ->
  (2 ^ length (s_flat demand drivers) <= t2)%nat ->
  ((exists A v c, optimize_shifts demand drivers t1 t2 = Solved A v c)
   <-> exists bits, feasible_complete demand drivers bits)
  /\ (optimize_shifts demand drivers t1 t2 = NoSolutionFound
      <-> ~ exists bits, feasible_complete demand drivers bits).
Proof.
  intros Hfit Ht.
  assert ((exists bits, feasible_complete demand drivers bits) ->
          exists a, first_feasible demand drivers t2 (leaves (s_flat demand drivers) [])
                    = Some a) as Hfind.
  { intros (bits & Hlen & Hbin & Hf).
    destruct (first_feasible demand drivers t2 (leaves (s_flat demand drivers) []))
      as [a|] eqn:E; [exists a; reflexivity | exfalso].
    apply first_feasible_None in E; [|rewrite length_leaves; exact Ht].
    rewrite Forall_forall in E.
    pose proof (leaves_complete (s_flat demand drivers) [] bits Hlen Hbin) as Hin.
    simpl in Hin. apply E in Hin. congruence. }
  pose proof (optimize_shifts_first_feasible demand drivers t1 t2 Hfit) as Hrun.
  split; split.
  - intros (A & v & c & H).
    apply Solved_leaf in H as (bits & l1 & l2 & _ & _ & Hfc & _). exists bits. exact Hfc.
  - intros Hex. apply Hfind in Hex as (a & E).
    exists (rows_of demand drivers a), (obj_var demand drivers a), 1%nat.
    rewrite Hrun, E. reflexivity.
  - intros H Hex. apply Hfind in Hex as (a & E).
    rewrite H in Hrun. rewrite E in Hrun. discriminate.
  - intros Hno. rewrite Hrun.
    destruct (first_feasible demand drivers t2 (leaves (s_flat demand drivers) []))
      as [a|] eqn:E; [exfalso | reflexivity].
    apply Hno.
    assert (optimize_shifts demand drivers t1 t2
            = Solved (rows_of demand drivers a) (obj_var demand drivers a) 1) as H
        by exact Hrun.
    apply Solved_leaf in H as (bits & l1 & l2 & _ & _ & Hfc & _). exists bits. exact Hfc.
Qed.

Lemma solved_iff_satisfiable_witness :
  fits_int64 [0;0;0;0;0]
  /\ (2 ^ length (s_flat [0;0;0;0;0]%Z 1%Z) <= 32)%nat
  /\ ((exists A v c, optimize_shifts [0;0;0;0;0] 1 32 32 = Solved A v c)
      <-> exists bits, feasible_complete [0;0;0;0;0] 1 bits).
Proof.
  assert (Hf : fits_int64 [0;0;0;0;0])
    by (apply fits_int64_forallb; vm_compute; reflexivity).
  assert (H : (2 ^ length (s_flat [0;0;0;0;0]%Z 1%Z) <= 32)%nat) by (vm_compute; lia).
  split; [exact Hf | split; [exact H|]].
  exact (proj1 (solved_iff_satisfiable [0;0;0;0;0] 1 32 32 Hf H)).
Defined.

(** A solution that was found is found again, and is the same, with more
    time for the second search and any time for the first. *)
Theorem solved_with_more_time demand drivers t1 t2 t1' t2' A v c :
  optimize_shifts demand drivers t1 t2 = Solved A v c ->
  (t2 <= t2')%nat ->
  optimize_shifts demand drivers t1' t2' = Solved A v c.
Proof.
  intros H Ht. pose proof (Solved_fits _ _ _ _ _ _ _ H) as Hfit.
  apply Solved_inv in H as (a & Hff & -> & -> & ->).
  rewrite (optimize_shifts_first_feasible demand drivers t1' t2' Hfit).
  rewrite (first_feasible_mono demand drivers _ t2 t2' a Ht Hff). reflexivity.
Qed.

Lemma solved_with_more_time_witness :
  optimize_shifts [0;0;0;0;0] 1 3 16 = Solved [[0;1;1;1;1]] 4 1
  /\ (16 <= 20)%nat
  /\ optimize_shifts [0;0;0;0;0] 1 7 20 = Solved [[0;1;1;1;1]] 4 1.
Proof.
  assert (H : optimize_shifts [0;0;0;0;0] 1 3 16 = Solved [[0;1;1;1;1]] 4 1)
    by (vm_compute; reflexivity).
  assert (Ht : (16 <= 20)%nat) by lia.
  split; [exact H | split; [exact Ht|]].
  exact (solved_with_more_time [0;0;0;0;0] 1 3 16 7 20 [[0;1;1;1;1]] 4 1 H Ht).
Defined.

(** ** The printed totals *)

Lemma second_search_collector demand drivers t1 t2 a :
  first_feasible demand drivers t2 (leaves (s_flat demand drivers) []) = Some a ->
  collector (second_search demand drivers t1 t2)
  = mkCollector [mkSolution a (obj_var demand drivers a)] true.
Proof.
  intros E. unfold second_search, Solve. rewrite (Phase_walk demand drivers None).
  pose proof (walk_plain demand drivers (leaves (s_flat demand drivers) [])
                (EnterSearch t2 (collector (first_search demand drivers t1)))
                eq_refl) as H.
  simpl in H. rewrite E in H. destruct H as [Hc _]. exact Hc.
Qed.

Lemma running_total (f : nat -> Z) (js : list nat) : forall z,
  fold_left (fun l j => l + f j) js z = z + Zsum (map f js).
Proof.
  induction js as [|j js IH]; intros z; simpl; [lia|].
  rewrite IH. unfold Zsum. lia.
Qed.

Lemma drivers_per_timeslot_columns demand drivers a :
  drivers_per_timeslot demand drivers
    (mkCollector [mkSolution a (obj_var demand drivers a)] true)
  = map (fun i => Zsum (map (fun j => Value a (shifts j i)) (range drivers)))
        (range (slots demand)).
Proof.
  unfold drivers_per_timeslot. apply map_ext. intros i.
  rewrite (running_total (fun j => Value a (shifts j i))). apply Z.add_0_l.
Qed.

(** The list printed as "Estimated drivers per timeslot" has one number per
    slot; the number for slot [i] is the sum of column [i] of the reported
    matrix, is at least the demand of the slot and at most the number of
    drivers; and the numbers add up to the reported objective value. *)
Theorem estimated_drivers_cover_demand demand drivers t1 t2 A v c :
  optimize_shifts demand drivers t1 t2 = Solved A v c ->
  length (estimated_drivers demand drivers t1 t2) = length demand
  /\ (forall i, (i < length demand)%nat ->
        nth i (estimated_drivers demand drivers t1 t2) 0
        = Zsum (map (fun j => entry A j i) (range drivers))
        /\ nth i demand 0 <= nth i (estimated_drivers demand drivers t1 t2) 0
           <= Z.max drivers 0)
  /\ Zsum (estimated_drivers demand drivers t1 t2) = v.
Proof.
  intros H. pose proof (Solved_satisfies _ _ _ _ _ _ _ H) as (Hcov & _).
  pose proof H as H'.
  apply Solved_leaf in H' as (bits & l1 & l2 & _ & _ & (Hlen & Hbin & _) & _).
  apply Solved_inv in H as (a & Hff & HA & -> & _).
  unfold estimated_drivers.
  rewrite (second_search_collector _ _ _ _ _ Hff), drivers_per_timeslot_columns.
  split; [|split].
  - rewrite length_map, length_range. unfold slots. apply Nat2Z.id.
  - intros i Hi.
    rewrite nth_map_range by (unfold slots; rewrite Nat2Z.id; exact Hi).
    assert (Zsum (map (fun j => Value a (shifts j i)) (range drivers))
            = Zsum (map (fun j => entry A j i) (range drivers))) as E.
    { apply Zsum_ext. intros j Hj. subst A. symmetry. apply entry_rows_of; assumption. }
    rewrite E. split; [reflexivity|]. split; [apply Hcov, Hi|].
    pose proof (Zsum_upper (fun j => entry A j i) 1 (range drivers)) as Hup.
    rewrite length_range in Hup.
    assert (Zsum (map (fun j => entry A j i) (range drivers))
            <= 1 * Z.of_nat (Z.to_nat drivers)) as Hle; [|lia].
    apply Hup. intros j Hj. apply in_range in Hj.
    rewrite HA, entry_rows_of by assumption.
    apply Value_at_most_1.
    apply first_feasible_Some in Hff as (_ & k1 & k2 & Hl & _).
    assert (In a (leaves (s_flat demand drivers) [])) as Hin
        by (rewrite Hl; apply in_or_app; right; left; reflexivity).
    apply leaves_shape in Hin as (bs & -> & Hlb & Hbb). simpl.
    rewrite values_combine by exact Hlb. exact Hbb.
  - rewrite obj_var_by_rows.
    apply (Zsum_swap (fun i j => Value a (shifts j i))).
Qed.

Lemma estimated_drivers_cover_demand_witness :
  optimize_shifts [0;0;0;0;0] 1 32 32 = Solved [[0;1;1;1;1]] 4 1
  /\ Zsum (estimated_drivers [0;0;0;0;0] 1 32 32) = 4.
Proof.
  assert (H : optimize_shifts [0;0;0;0;0] 1 32 32 = Solved [[0;1;1;1;1]] 4 1)
    by (vm_compute; reflexivity).
  split; [exact H|].
  exact (proj2 (proj2 (estimated_drivers_cover_demand
                         [0;0;0;0;0] 1 32 32 [[0;1;1;1;1]] 4 1 H))).
Defined.

(** The number printed as "Oversupply hours" is the reported objective value
    minus the total demand, and is never negative. *)
Theorem oversupply_is_not_negative demand drivers t1 t2 A v c :
  optimize_shifts demand drivers t1 t2 = Solved A v c ->
  oversupply_hours demand drivers t1 t2 = v - Zsum demand
  /\ 0 <= oversupply_hours demand drivers t1 t2.
Proof.
  intros H. apply Solved_inv in H as (a & Hff & _ & -> & _).
  unfold oversupply_hours. rewrite (second_search_collector _ _ _ _ _ Hff).
  unfold ObjectiveValue. simpl. split; [reflexivity|].
  apply first_feasible_Some in Hff as (Hfa & _).
  pose proof (coverage_lower_bound demand drivers a Hfa). lia.
Qed.

Lemma oversupply_is_not_negative_witness :
  optimize_shifts [0;0;0;0;0] 1 32 32 = Solved [[0;1;1;1;1]] 4 1
  /\ oversupply_hours [0;0;0;0;0] 1 32 32 = 4 - Zsum [0;0;0;0;0]
  /\ 0 <= oversupply_hours [0;0;0;0;0] 1 32 32.
Proof.
  assert (H : optimize_shifts [0;0;0;0;0] 1 32 32 = Solved [[0;1;1;1;1]] 4 1)
    by (vm_compute; reflexivity).
  split; [exact H|].
  exact (oversupply_is_not_negative [0;0;0;0;0] 1 32 32 [[0;1;1;1;1]] 4 1 H).
Defined.

(** ** Inputs without solution *)

Lemma duration_upper_bound demand drivers a :
  feasible demand drivers a = true ->
  obj_var demand drivers a <= 10 * Z.of_nat (Z.to_nat drivers).
Proof.
  intros Hf. apply feasible_iff in Hf as (_ & Hd & _).
  rewrite obj_var_by_rows.
  pose proof (Zsum_upper
                (fun j => Zsum (map (fun i => Value a (shifts j i)) (range (slots demand))))
                10 (range drivers)) as H.
  rewrite length_range in H. apply H.
  intros j Hj. apply in_range in Hj. apply (Hd j Hj).
Qed.

Lemma leaf_values_binary demand drivers a :
  In a (leaves (s_flat demand drivers) []) -> Forall binary (values a).
Proof.
  intros Hin. apply leaves_shape in Hin as (bits & -> & Hlen & Hbin). simpl.
  rewrite values_combine by exact Hlen. exact Hbin.
Qed.

Lemma first_feasible_leaf demand drivers t l a :
  first_feasible demand drivers t l = Some a ->
  feasible demand drivers a = true /\ In a l.
Proof.
  intros H. apply first_feasible_Some in H as (Hf & l1 & l2 & -> & _).
  split; [exact Hf | apply in_or_app; right; left; reflexivity].
Qed.

(** When no leaf of the search tree satisfies the constraints, no call
    reports a solution, and a call whose model is built reports that there
    is none. *)
Lemma infeasible_outcome demand drivers t1 t2 :
  (forall a, In a (leaves (s_flat demand drivers) []) ->
             feasible demand drivers a = true -> False) ->
  (forall A v c, optimize_shifts demand drivers t1 t2 <> Solved A v c)
  /\ (fits_int64 demand -> optimize_shifts demand drivers t1 t2 = NoSolutionFound).
Proof.
  intros Hno. split.
  - intros A v c H. apply Solved_inv in H as (a & Hff & _).
    apply first_feasible_leaf in Hff as (Hfa & Hin). exact (Hno a Hin Hfa).
  - intros Hfit. rewrite (optimize_shifts_first_feasible demand drivers t1 t2 Hfit).
    destruct (first_feasible demand drivers t2 (leaves (s_flat demand drivers) []))
      as [a|] eqn:E; [exfalso | reflexivity].
    apply first_feasible_leaf in E as (Hfa & Hin). exact (Hno a Hin Hfa).
Qed.

(** With a non-negative number of drivers, a reported objective value is at
    most [10 * drivers].  With a total demand above [10 * drivers] no call
    reports a solution, and a call whose demand values all are signed 64-bit
    integers reports that there is none. *)
Theorem total_demand_above_capacity demand drivers :
  0 <= drivers ->
  (forall t1 t2 A v c,
      optimize_shifts demand drivers t1 t2 = Solved A v c -> v <= 10 * drivers)
  /\ (10 * drivers < Zsum demand ->
      forall t1 t2,
        (forall A v c, optimize_shifts demand drivers t1 t2 <> Solved A v c)
        /\ (fits_int64 demand ->
            optimize_shifts demand drivers t1 t2 = NoSolutionFound)).
Proof.
  intros Hd. split.
  - intros t1 t2 A v c H. apply Solved_inv in H as (a & Hff & _ & -> & _).
    apply first_feasible_leaf in Hff as (Hfa & _).
    pose proof (duration_upper_bound demand drivers a Hfa). lia.
  - intros Hgt t1 t2. apply infeasible_outcome. intros a _ Hfa.
    pose proof (duration_upper_bound demand drivers a Hfa).
    pose proof (coverage_lower_bound demand drivers a Hfa). lia.
Qed.

Lemma total_demand_above_capacity_witness :
  0 <= 1 /\ 10 * 1 < Zsum [3;3;3;3] /\ fits_int64 [3;3;3;3]
  /\ optimize_shifts [3;3;3;3] 1 16 16 = NoSolutionFound.
Proof.
  assert (H0 : 0 <= 1) by lia.
  assert (H1 : 10 * 1 < Zsum [3;3;3;3]) by (vm_compute; reflexivity).
  assert (Hf : fits_int64 [3;3;3;3])
    by (apply fits_int64_forallb; vm_compute; reflexivity).
  split; [exact H0 | split; [exact H1 | split; [exact Hf|]]].
  exact (proj2 (proj2 (total_demand_above_capacity [3;3;3;3] 1 H0) H1 16%nat 16%nat)
               Hf).
Defined.

(** With at least one driver and fewer than 4 slots no shift can reach the
    minimum duration: no call reports a solution, and a call whose demand
    values all are signed 64-bit integers reports that there is none. *)
Theorem fewer_than_four_slots demand drivers t1 t2 :
  1 <= drivers -> (length demand < 4)%nat ->
  (forall A v c, optimize_shifts demand drivers t1 t2 <> Solved A v c)
  /\ (fits_int64 demand -> optimize_shifts demand drivers t1 t2 = NoSolutionFound).
Proof.
  intros Hd Hs. apply infeasible_outcome. intros a Hin Hfa.
  apply leaf_values_binary in Hin.
  apply feasible_iff in Hfa as (_ & Hdur & _).
  assert (0 < Z.to_nat drivers)%nat as H0 by lia.
  specialize (Hdur 0%nat H0).
  pose proof (Zsum_upper (fun i => Value a (shifts 0 i)) 1 (range (slots demand))) as Hup.
  assert (Z.to_nat (slots demand) = length demand) as Es
      by (unfold slots; apply Nat2Z.id).
  rewrite length_range, Es in Hup.
  assert (Zsum (map (fun i => Value a (shifts 0 i)) (range (slots demand)))
          <= 1 * Z.of_nat (length demand)) as Hle
      by (apply Hup; intros i _; apply Value_at_most_1, Hin).
  lia.
Qed.

Lemma fewer_than_four_slots_witness :
  1 <= 2 /\ (length [0;0;0]%Z < 4)%nat /\ fits_int64 [0;0;0]
  /\ optimize_shifts [0;0;0] 2 64 64 = NoSolutionFound.
Proof.
  assert (H0 : 1 <= 2) by lia.
  assert (H1 : (length [0;0;0]%Z < 4)%nat) by (simpl; lia).
  assert (Hf : fits_int64 [0;0;0])
    by (apply fits_int64_forallb; vm_compute; reflexivity).
  split; [exact H0 | split; [exact H1 | split; [exact Hf|]]].
  exact (proj2 (fewer_than_four_slots [0;0;0] 2 64 64 H0 H1) Hf).
Defined.

Lemma no_driver_no_variable demand drivers :
  drivers <= 0 -> range drivers = [] /\ s_flat demand drivers = [].
Proof.
  intros Hd. assert (range drivers = []) as E
      by (unfold range; replace (Z.to_nat drivers) with 0%nat by lia; reflexivity).
  split; [exact E | unfold s_flat; rewrite E; reflexivity].
Qed.

Lemma no_driver_feasible demand drivers :
  drivers <= 0 ->
  feasible demand drivers [] = true <-> forall d, In d demand -> d <= 0.
Proof.
  intros Hd. destruct (no_driver_no_variable demand drivers Hd) as [Er _].
  rewrite feasible_iff. unfold satisfies, coverage, duration_bounds, window3, window5.
  rewrite Er. simpl. split.
  - intros (Hc & _) d Hin. apply (In_nth _ _ 0) in Hin as (i & Hi & <-). apply Hc, Hi.
  - intros H. split; [|split; [|split]].
    + intros i Hi. apply H, nth_In, Hi.
    + intros j Hj. lia.
    + intros j i Hj. lia.
    + intros j i Hj. lia.
Qed.

(** Without driver (a driver count of 0 or less) there is no variable.
    When every demand value is a signed 64-bit integer, the call reports the
    empty schedule with objective value 0 if no slot has a positive demand
    and the second search has time for one step, and no solution if some
    slot has a positive demand. *)
Theorem no_driver demand drivers t1 t2 :
  drivers <= 0 -> fits_int64 demand ->
  ((forall d, In d demand -> d <= 0) -> (1 <= t2)%nat ->
   optimize_shifts demand drivers t1 t2 = Solved [] 0 1)
  /\ ((exists d, In d demand /\ 0 < d) ->
      optimize_shifts demand drivers t1 t2 = NoSolutionFound).
Proof.
  intros Hd Hfit. destruct (no_driver_no_variable demand drivers Hd) as [Er Es].
  pose proof (no_driver_feasible demand drivers Hd) as Hf.
  rewrite (optimize_shifts_first_feasible demand drivers t1 t2 Hfit), Es. simpl. split.
  - intros Hall Ht. destruct t2 as [|t2]; [lia|]. simpl.
    apply Hf in Hall. rewrite Hall.
    unfold rows_of, obj_var, Sum. rewrite Er. reflexivity.
  - intros (d & Hin & Hpos). destruct t2 as [|t2]; [reflexivity|]. simpl.
    destruct (feasible demand drivers []) eqn:E; [exfalso | destruct t2; reflexivity].
    pose proof (proj1 Hf eq_refl d Hin). lia.
Qed.

Lemma no_driver_witness :
  -1 <= 0 /\ fits_int64 [0;-2]
  /\ (forall d, In d [0;-2] -> d <= 0) /\ (1 <= 3)%nat
  /\ optimize_shifts [0;-2] (-1) 5 3 = Solved [] 0 1.
Proof.
  assert (H0 : -1 <= 0) by lia.
  assert (Hf : fits_int64 [0;-2])
    by (apply fits_int64_forallb; vm_compute; reflexivity).
  assert (H1 : forall d, In d [0;-2] -> d <= 0)
    by (intros d [<- | [<- | []]]; lia).
  assert (H2 : (1 <= 3)%nat) by lia.
  split; [exact H0 | split; [exact Hf | split; [exact H1 | split; [exact H2|]]]].
  exact (proj1 (no_driver [0;-2] (-1) 5 3 H0 Hf) H1 H2).
Defined.

(** ** What the window constraints give *)

(** In a reported row, around any five consecutive slots [i .. i+4]: when
    the value changes between slots [i] and [i+1], the new value is kept in
    slots [i+1 .. i+4]; when it changes between slots [i+3] and [i+4], the
    old value was held in slots [i .. i+3]. *)
Theorem change_is_followed_by_four_equal demand drivers t1 t2 A v c j i :
  optimize_shifts demand drivers t1 t2 = Solved A v c ->
  (j < Z.to_nat drivers)%nat -> (i + 4 < length demand)%nat ->
  (entry A j i <> entry A j (i + 1)%nat ->
   entry A j (i + 1)%nat = entry A j (i + 2)%nat
   /\ entry A j (i + 2)%nat = entry A j (i + 3)%nat
   /\ entry A j (i + 3)%nat = entry A j (i + 4)%nat)
  /\ (entry A j (i + 3)%nat <> entry A j (i + 4)%nat ->
      entry A j i = entry A j (i + 1)%nat
      /\ entry A j (i + 1)%nat = entry A j (i + 2)%nat
      /\ entry A j (i + 2)%nat = entry A j (i + 3)%nat).
Proof.
  intros H Hj Hi. apply Solved_satisfies in H as (_ & _ & H3 & H5).
  pose proof (H3 j i Hj ltac:(lia)) as Wa.
  pose proof (H3 j (i + 2)%nat Hj ltac:(lia)) as Wb.
  pose proof (H5 j i Hj Hi) as Wc.
  replace (i + 2 + 1)%nat with (i + 3)%nat in Wb by lia.
  replace (i + 2 + 2)%nat with (i + 4)%nat in Wb by lia.
  split; intros Hne; repeat split; destruct Wa, Wb, Wc; congruence.
Qed.

Lemma change_is_followed_by_four_equal_witness :
  optimize_shifts [0;0;0;0;0] 1 32 32 = Solved [[0;1;1;1;1]] 4 1
  /\ (0 < Z.to_nat 1)%nat /\ (0 + 4 < length [0;0;0;0;0]%Z)%nat
  /\ (entry [[0;1;1;1;1]] 0 0 <> entry [[0;1;1;1;1]] 0 (0 + 1)%nat ->
      entry [[0;1;1;1;1]] 0 (0 + 1)%nat = entry [[0;1;1;1;1]] 0 (0 + 2)%nat
      /\ entry [[0;1;1;1;1]] 0 (0 + 2)%nat = entry [[0;1;1;1;1]] 0 (0 + 3)%nat
      /\ entry [[0;1;1;1;1]] 0 (0 + 3)%nat = entry [[0;1;1;1;1]] 0 (0 + 4)%nat).
Proof.
  assert (H : optimize_shifts [0;0;0;0;0] 1 32 32 = Solved [[0;1;1;1;1]] 4 1)
    by (vm_compute; reflexivity).
  assert (Hj : (0 < Z.to_nat 1)%nat) by (simpl; lia).
  assert (Hi : (0 + 4 < length [0;0;0;0;0]%Z)%nat) by (simpl; lia).
  split; [exact H | split; [exact Hj | split; [exact Hi|]]].
  exact (proj1 (change_is_followed_by_four_equal
                  [0;0;0;0;0] 1 32 32 [[0;1;1;1;1]] 4 1 0 0 H Hj Hi)).
Defined.

(** ** The first, minimizing search *)

Lemma StronglySorted_snoc {B : Type} (R : B -> B -> Prop) (l : list B) (y : B) :
  Sorted.StronglySorted R l -> Forall (fun x => R x y) l ->
  Sorted.StronglySorted R (l ++ [y]).
Proof.
  induction 1 as [|x l Hl IH Hx]; intros Hy; simpl.
  - constructor; constructor.
  - inversion Hy as [|? ? Hxy Hly]; subst. constructor; [apply IH, Hly|].
    apply Forall_app. split; [exact Hx | constructor; [exact Hxy | constructor]].
Qed.

Section Minimize.

Variable demand : list Z.
Variable drivers : Z.

Lemma newest_objective_snoc acc a :
  newest_objective demand drivers (acc ++ [a]) = Some (obj_var demand drivers a).
Proof. unfold newest_objective. rewrite rev_unit. reflexivity. Qed.

Lemma newest_objective_None acc :
  newest_objective demand drivers acc = None -> acc = [].
Proof.
  unfold newest_objective. destruct (rev acc) as [|a r] eqn:E; [|discriminate].
  intros _. rewrite <- (rev_involutive acc), E. reflexivity.
Qed.

Lemma newest_objective_Some acc b :
  newest_objective demand drivers acc = Some b ->
  exists l a, acc = l ++ [a] /\ obj_var demand drivers a = b.
Proof.
  unfold newest_objective. destruct (rev acc) as [|a r] eqn:E; [discriminate|].
  intros H. injection H as <-. exists (rev r), a.
  split; [|reflexivity]. rewrite <- (rev_involutive acc), E. reflexivity.
Qed.

(** Accepting an assignment that improves on the value held keeps the
    state of a minimizing search. *)
Lemma minimizing_accept st a t :
  minimizing demand drivers st ->
  feasible demand drivers a = true ->
  accept_objective demand drivers (Some 1) st a = true ->
  minimizing demand drivers
    (mkSearch t false (Some (obj_var demand drivers a))
              (collect demand drivers (collector st) a) (accepted st ++ [a])).
Proof.
  intros (Hb & Hf & Hs & Hm) Hfa Hacc. unfold minimizing. simpl.
  assert (forall x, In x (accepted st) ->
                    obj_var demand drivers a <= obj_var demand drivers x - 1) as Hlt.
  { intros x Hx. unfold accept_objective in Hacc.
    destruct (best st) as [b|] eqn:E.
    - apply Z.leb_le in Hacc. pose proof (Hm b eq_refl x Hx). lia.
    - symmetry in Hb. apply newest_objective_None in Hb.
      rewrite Hb in Hx. destruct Hx. }
  split; [|split; [|split]].
  - symmetry. apply newest_objective_snoc.
  - apply Forall_app. split; [exact Hf | constructor; [exact Hfa | constructor]].
  - apply StronglySorted_snoc; [exact Hs|].
    apply Forall_forall. intros x Hx. apply Hlt, Hx.
  - intros b Eb x Hx. injection Eb as <-.
    apply in_app_or in Hx as [Hx | [<- | []]]; [|lia].
    pose proof (Hlt x Hx). lia.
Qed.

Lemma minimizing_at_leaf st a :
  minimizing demand drivers st ->
  minimizing demand drivers (at_leaf demand drivers (Some 1) st a).
Proof.
  intros Hinv. unfold at_leaf.
  destruct (finished st); [exact Hinv|].
  destruct (time_left st) as [|t]; [exact Hinv|].
  destruct (feasible demand drivers a) eqn:Hfa; cbn [andb]; [|exact Hinv].
  destruct (accept_objective demand drivers (Some 1) st a) eqn:Hacc; [|exact Hinv].
  apply minimizing_accept; assumption.
Qed.

Lemma minimizing_walk l : forall st,
  minimizing demand drivers st ->
  minimizing demand drivers (fold_left (at_leaf demand drivers (Some 1)) l st).
Proof.
  induction l as [|a l IH]; intros st Hinv; simpl; [exact Hinv|].
  apply IH, minimizing_at_leaf, Hinv.
Qed.

Lemma minimizing_first_search t1 :
  minimizing demand drivers (first_search demand drivers t1).
Proof.
  unfold first_search, Solve. rewrite Phase_walk. apply minimizing_walk.
  unfold minimizing, EnterSearch, newest_objective. simpl.
  repeat split; try constructor. intros b Hb. discriminate.
Qed.

End Minimize.

(** The assignments accepted by the first search all satisfy the posted
    constraints, and each has an objective value at least 1 below that of
    every assignment accepted before it. *)
Theorem first_search_improves demand drivers t1 :
  Forall (fun a => feasible demand drivers a = true)
         (accepted (first_search demand drivers t1))
  /\ Sorted.StronglySorted
       (fun a b => obj_var demand drivers b <= obj_var demand drivers a - 1)
       (accepted (first_search demand drivers t1)).
Proof.
  destruct (minimizing_first_search demand drivers t1) as (_ & Hf & Hs & _).
  split; assumption.
Qed.

Section Exhaustive.

Variable demand : list Z.
Variable drivers : Z.

(** One leaf of a minimizing search that still has time: the search goes
    on, the value held does not increase, and it is at most the objective
    value of the leaf when the leaf is feasible. *)
Lemma minimize_step st a t :
  finished st = false -> time_left st = S t ->
  finished (at_leaf demand drivers (Some 1) st a) = false
  /\ time_left (at_leaf demand drivers (Some 1) st a) = t
  /\ (forall b, best st = Some b ->
        exists b1, best (at_leaf demand drivers (Some 1) st a) = Some b1 /\ b1 <= b)
  /\ (feasible demand drivers a = true ->
        exists b1, best (at_leaf demand drivers (Some 1) st a) = Some b1
                   /\ b1 <= obj_var demand drivers a).
Proof.
  intros Hf Ht. unfold at_leaf. rewrite Hf, Ht.
  destruct (feasible demand drivers a) eqn:Hfa; cbn [andb].
  - unfold accept_objective. destruct (best st) as [b|] eqn:Eb.
    + destruct (Z.leb_spec (obj_var demand drivers a) (b - 1)); simpl.
      * repeat split.
        -- intros b0 E. injection E as <-. eexists. split; [reflexivity | lia].
        -- intros _. eexists. split; [reflexivity | lia].
      * repeat split.
        -- intros b0 E. injection E as <-. exists b. split; [reflexivity | lia].
        -- intros _. exists b. split; [reflexivity | lia].
    + simpl. repeat split.
      * intros b0 E. discriminate.
      * intros _. eexists. split; [reflexivity | lia].
  - simpl. repeat split.
    + intros b E. exists b. split; [exact E | lia].
    + intros H. discriminate.
Qed.

Lemma minimize_walk_covers l : forall st,
  finished st = false -> (length l <= time_left st)%nat ->
  (forall b, best st = Some b ->
     exists b', best (fold_left (at_leaf demand drivers (Some 1)) l st) = Some b'
                /\ b' <= b)
  /\ (forall x, In x l -> feasible demand drivers x = true ->
        exists b', best (fold_left (at_leaf demand drivers (Some 1)) l st) = Some b'
                   /\ b' <= obj_var demand drivers x).
Proof.
  induction l as [|a l IH]; intros st Hf Ht; simpl.
  - split; [|intros x []]. intros b E. exists b. split; [exact E | lia].
  - simpl in Ht. destruct (time_left st) as [|t] eqn:Et; [lia|].
    destruct (minimize_step st a t Hf Et) as (Hf1 & Ht1 & Hmono & Hleaf).
    destruct (IH (at_leaf demand drivers (Some 1) st a) Hf1 ltac:(lia))
      as (IHmono & IHcov).
    split.
    + intros b E. destruct (Hmono b E) as (b1 & E1 & Hle1).
      destruct (IHmono b1 E1) as (b' & E' & Hle'). exists b'. split; [exact E' | lia].
    + intros x [<- | Hx] Hfx.
      * destruct (Hleaf Hfx) as (b1 & E1 & Hle1).
        destruct (IHmono b1 E1) as (b' & E' & Hle'). exists b'. split; [exact E' | lia].
      * apply IHcov; assumption.
Qed.

End Exhaustive.

(** When the first search has the time to go through the whole tree and
    the constraints can be satisfied, the assignment it accepts last
    satisfies the constraints and has the smallest objective value of all
    complete 0/1 assignments that do. *)
Theorem first_search_ends_on_a_minimum demand drivers t1 :
  (2 ^ length (s_flat demand drivers) <= t1)%nat ->
  (exists bits, feasible_complete demand drivers bits) ->
  exists l a,
    accepted (first_search demand drivers t1) = l ++ [a]
    /\ feasible demand drivers a = true
    /\ forall bits, feasible_complete demand drivers bits ->
         obj_var demand drivers a
         <= obj_var demand drivers (combine (s_flat demand drivers) bits).
Proof.
  intros Ht (bits0 & Hfc0).
  pose proof (minimizing_first_search demand drivers t1) as (Hb & Hf & _ & _).
  assert (forall bits, feasible_complete demand drivers bits ->
            exists b, best (first_search demand drivers t1) = Some b
                      /\ b <= obj_var demand drivers
                                (combine (s_flat demand drivers) bits)) as Hcov.
  { intros bits (Hlen & Hbin & Hfeas).
    unfold first_search, Solve. rewrite Phase_walk.
    apply (minimize_walk_covers demand drivers
             (leaves (s_flat demand drivers) []) (EnterSearch t1 (mkCollector [] false))).
    - reflexivity.
    - rewrite length_leaves. exact Ht.
    - apply (leaves_complete (s_flat demand drivers) [] bits Hlen Hbin).
    - exact Hfeas. }
  destruct (Hcov bits0 Hfc0) as (b0 & Eb0 & _).
  rewrite Eb0 in Hb. symmetry in Hb.
  apply newest_objective_Some in Hb as (l & a & Hacc & Hobj).
  exists l, a. split; [exact Hacc|]. split.
  - rewrite Hacc in Hf. apply Forall_app in Hf as [_ Hfa].
    inversion Hfa; assumption.
  - intros bits Hfc. destruct (Hcov bits Hfc) as (b & Eb & Hle).
    rewrite Eb0 in Eb. injection Eb as <-. lia.
Qed.

Lemma first_search_ends_on_a_minimum_witness :
  (2 ^ length (s_flat [0;0;0;0;0]%Z 1%Z) <= 32)%nat
  /\ (exists bits, feasible_complete [0;0;0;0;0] 1 bits)
  /\ exists l a,
       accepted (first_search [0;0;0;0;0] 1 32) = l ++ [a]
       /\ feasible [0;0;0;0;0] 1 a = true
       /\ forall bits, feasible_complete [0;0;0;0;0] 1 bits ->
            obj_var [0;0;0;0;0] 1 a
            <= obj_var [0;0;0;0;0] 1 (combine (s_flat [0;0;0;0;0] 1) bits).
Proof.
  assert (H : (2 ^ length (s_flat [0;0;0;0;0]%Z 1%Z) <= 32)%nat) by (vm_compute; lia).
  assert (Hex : exists bits, feasible_complete [0;0;0;0;0] 1 bits).
  { exists [0;1;1;1;1]. split; [reflexivity|]. split; [|vm_compute; reflexivity].
    repeat constructor; (left; reflexivity) || (right; reflexivity). }
  split; [exact H | split; [exact Hex|]].
  exact (first_search_ends_on_a_minimum [0;0;0;0;0] 1 32 H Hex).
Defined.

Section SameCollector.

Variable demand : list Z.
Variable drivers : Z.

(** Once the collector has stored a solution, a search leaves it as it is. *)
Lemma walk_done om l : forall st,
  done (collector st) = true ->
  collector (fold_left (at_leaf demand drivers om) l st) = collector st.
Proof.
  induction l as [|a l IH]; intros st Hd; simpl; [reflexivity|].
  assert (collector (at_leaf demand drivers om st a) = collector st) as E.
  { unfold at_leaf.
    destruct (finished st); [reflexivity|].
    destruct (time_left st); [reflexivity|].
    destruct (feasible demand drivers a && accept_objective demand drivers om st a);
      [|reflexivity].
    destruct om; simpl; unfold collect; rewrite Hd; reflexivity. }
  rewrite IH; rewrite E; [reflexivity | exact Hd].
Qed.

Lemma walk_minimize_collector l : forall st,
  finished st = false -> best st = None -> done (collector st) = false ->
  collector (fold_left (at_leaf demand drivers (Some 1)) l st)
  = match first_feasible demand drivers (time_left st) l with
    | Some a => collect demand drivers (collector st) a
    | None => collector st
    end.
Proof.
  induction l as [|a l IH]; intros st Hf Hb Hd.
  - simpl. destruct (time_left st); reflexivity.
  - cbn [fold_left]. unfold at_leaf at 2. rewrite Hf.
    destruct (time_left st) as [|t] eqn:Et; cbn [first_feasible].
    + rewrite walk_finished by reflexivity. reflexivity.
    + unfold accept_objective. rewrite Hb, andb_true_r.
      destruct (feasible demand drivers a) eqn:Hfa.
      * rewrite walk_done; [reflexivity|]. simpl. unfold collect. rewrite Hd. reflexivity.
      * exact (IH (mkSearch t false None (collector st) (accepted st))
                  eq_refl eq_refl Hd).
Qed.

End SameCollector.

Lemma first_search_collects demand drivers t :
  collector (first_search demand drivers t)
  = match first_feasible demand drivers t (leaves (s_flat demand drivers) []) with
    | Some a => mkCollector [mkSolution a (obj_var demand drivers a)] true
    | None => mkCollector [] false
    end.
Proof.
  unfold first_search, Solve. rewrite Phase_walk.
  rewrite walk_minimize_collector by reflexivity. reflexivity.
Qed.

Lemma second_search_collects demand drivers t1 t :
  collector (second_search demand drivers t1 t)
  = match first_feasible demand drivers t (leaves (s_flat demand drivers) []) with
    | Some a => mkCollector [mkSolution a (obj_var demand drivers a)] true
    | None => mkCollector [] false
    end.
Proof.
  unfold second_search, Solve. rewrite Phase_walk.
  pose proof (walk_plain demand drivers (leaves (s_flat demand drivers) [])
                (EnterSearch t (collector (first_search demand drivers t1)))
                eq_refl) as H.
  cbn [time_left EnterSearch] in H.
  destruct (first_feasible demand drivers t (leaves (s_flat demand drivers) []))
    as [a|]; destruct H as [Hc _]; rewrite Hc; reflexivity.
Qed.

(** Given the same time, the first search, with its [Minimize] monitor, and
    the second search, without it, leave the same content in the collector:
    the monitor has no effect on what a first-solution collector stores. *)
Theorem both_searches_collect_the_same demand drivers t1 t :
  collector (first_search demand drivers t)
  = collector (second_search demand drivers t1 t).
Proof. rewrite first_search_collects, second_search_collects. reflexivity. Qed.

(** ** The variables handed to the decision builder *)

Lemma nth_map_seq {B : Type} (f : nat -> B) s i d :
  (i < s)%nat -> nth i (map f (seq 0 s)) d = f i.
Proof.
  intros Hi.
  rewrite (nth_indep _ d (f 0%nat)) by (rewrite length_map, length_seq; exact Hi).
  rewrite map_nth, seq_nth by exact Hi. reflexivity.
Qed.

Lemma length_per_driver (l : list nat) (js : list nat) :
  length (flat_map (fun j => map (fun i => shifts j i) l) js)
  = (length js * length l)%nat.
Proof.
  induction js as [|j js IH]; simpl; [reflexivity|].
  rewrite length_app, length_map, IH. reflexivity.
Qed.

Lemma nth_per_driver s : forall d a j i,
  (j < d)%nat -> (i < s)%nat ->
  nth (j * s + i) (flat_map (fun j => map (fun i => shifts j i) (seq 0 s)) (seq a d))
      (0%nat, 0%nat)
  = shifts (a + j) i.
Proof.
  induction d as [|d IH]; intros a j i Hj Hi; [lia|]. simpl.
  destruct j as [|j].
  - rewrite app_nth1 by (rewrite length_map, length_seq; simpl; exact Hi).
    simpl. rewrite nth_map_seq by exact Hi. rewrite Nat.add_0_r. reflexivity.
  - rewrite app_nth2 by (rewrite length_map, length_seq; simpl; lia).
    rewrite length_map, length_seq.
    replace (S j * s + i - s)%nat with (j * s + i)%nat by (simpl; lia).
    rewrite IH by lia. rewrite Nat.add_succ_r. reflexivity.
Qed.

(** [s_flat] holds each of the [drivers * slots] variables once, in
    row-major order: the variable of driver [j] and slot [i] is at position
    [j * slots + i]. *)
Theorem s_flat_row_major demand drivers :
  length (s_flat demand drivers) = (Z.to_nat drivers * length demand)%nat
  /\ NoDup (s_flat demand drivers)
  /\ forall j i, (j < Z.to_nat drivers)%nat -> (i < length demand)%nat ->
       nth (j * length demand + i) (s_flat demand drivers) (0%nat, 0%nat)
       = shifts j i.
Proof.
  assert (Z.to_nat (slots demand) = length demand) as Es
      by (unfold slots; apply Nat2Z.id).
  split; [|split].
  - unfold s_flat. rewrite length_per_driver, !length_range, Es. reflexivity.
  - apply s_flat_NoDup.
  - intros j i Hj Hi. unfold s_flat, range. rewrite Es.
    apply (nth_per_driver (length demand) (Z.to_nat drivers) 0 j i Hj Hi).
Qed.

Lemma s_flat_row_major_witness :
  (1 < Z.to_nat 2)%nat /\ (2 < length [0;0;0;0]%Z)%nat
  /\ nth (1 * length [0;0;0;0]%Z + 2) (s_flat [0;0;0;0] 2) (0%nat, 0%nat)
     = shifts 1 2.
Proof.
  assert (Hj : (1 < Z.to_nat 2)%nat) by (simpl; lia).
  assert (Hi : (2 < length [0;0;0;0]%Z)%nat) by (simpl; lia).
  split; [exact Hj | split; [exact Hi|]].
  exact (proj2 (proj2 (s_flat_row_major [0;0;0;0] 2)) 1%nat 2%nat Hj Hi).
Defined.

(** ** Loading an exercise *)

Module LoadDataFacts.

Import Ascii String LoadData.

Section Files.

Variable JSON : Type.
Variable json_load : string -> PyError + JSON.
Variable demand_of : JSON -> PyError + list Z.

Lemma not_an_exercise exercise :
  ~ In exercise exercises ->
  String.eqb exercise "ex1" = false
  /\ String.eqb exercise "ex2" = false
  /\ String.eqb exercise "ex3" = false.
Proof.
  intros Hn. unfold exercises in Hn. simpl in Hn.
  repeat split; apply String.eqb_neq; intros ->; apply Hn; auto.
Qed.

(** [load_data] reads the file [planning_demand/<exercise>-in.json] when the
    exercise is one of [ex1], [ex2], [ex3], and for any other name raises
    [UnboundLocalError] without reading a file. *)
Theorem load_data_files exercise :
  (In exercise exercises ->
   load_data JSON json_load exercise = json_load (file_of exercise))
  /\ (~ In exercise exercises ->
      load_data JSON json_load exercise = inl UnboundLocalError).
Proof.
  split.
  - intros [<- | [<- | [<- | []]]]; reflexivity.
  - intros Hn. apply not_an_exercise in Hn as (E1 & E2 & E3).
    unfold load_data. rewrite E1, E2, E3. reflexivity.
Qed.

(** A call of [optimize_shifts] that returns has optimised the demand
    stored in the file of its exercise, one of [ex1], [ex2], [ex3]. *)
Theorem optimize_shifts_exercise_returns exercise drivers t1 t2 o :
  optimize_shifts_exercise JSON json_load demand_of exercise drivers t1 t2 = inr o ->
  In exercise exercises
  /\ exists json_data demand,
       json_load (file_of exercise) = inr json_data
       /\ demand_of json_data = inr demand
       /\ o = optimize_shifts demand drivers t1 t2.
Proof.
  intros H. unfold optimize_shifts_exercise in H.
  destruct exercise as [|ch rest]; [discriminate|].
  destruct (in_dec string_dec (String ch rest) exercises) as [Hin | Hn].
  - split; [exact Hin|].
    rewrite (proj1 (load_data_files (String ch rest)) Hin) in H.
    destruct (json_load (file_of (String ch rest))) as [e | json_data];
      [discriminate|].
    destruct (demand_of json_data) as [e | demand] eqn:Ed; [discriminate|].
    injection H as <-. exists json_data, demand. auto.
  - rewrite (proj2 (load_data_files (String ch rest)) Hn) in H. discriminate.
Qed.

(** For a name other than [ex1], [ex2], [ex3] the call raises before any
    file is read and any model is built: [IndexError] for the empty name,
    whose last character the banner asks for, and [UnboundLocalError]
    otherwise. *)
Theorem optimize_shifts_exercise_unknown exercise drivers t1 t2 :
  ~ In exercise exercises ->
  optimize_shifts_exercise JSON json_load demand_of exercise drivers t1 t2
  = inl (if String.eqb exercise "" then IndexError else UnboundLocalError).
Proof.
  intros Hn. unfold optimize_shifts_exercise.
  destruct exercise as [|ch rest]; [reflexivity|].
  rewrite (proj2 (load_data_files (String ch rest)) Hn). reflexivity.
Qed.

End Files.

Lemma load_data_files_witness :
  In "ex1"%string exercises
  /\ load_data (list Z) one_file "ex1" = inr [0;0;0;0;0].
Proof.
  assert (H : In "ex1"%string exercises) by (left; reflexivity).
  split; [exact H|].
  exact (proj1 (load_data_files (list Z) one_file "ex1") H).
Defined.

Lemma optimize_shifts_exercise_returns_witness :
  optimize_shifts_exercise (list Z) one_file inr "ex1" 1 32 32
  = inr (Solved [[0;1;1;1;1]] 4 1)
  /\ In "ex1"%string exercises.
Proof.
  assert (H : optimize_shifts_exercise (list Z) one_file inr "ex1" 1 32 32
              = inr (Solved [[0;1;1;1;1]] 4 1)) by (vm_compute; reflexivity).
  split; [exact H|].
  exact (proj1 (optimize_shifts_exercise_returns (list Z) one_file inr
                  "ex1" 1 32 32 (Solved [[0;1;1;1;1]] 4 1) H)).
Defined.

Lemma optimize_shifts_exercise_unknown_witness :
  ~ In "ex4"%string exercises
  /\ optimize_shifts_exercise (list Z) one_file inr "ex4" 1 32 32
     = inl UnboundLocalError.
Proof.
  assert (H : ~ In "ex4"%string exercises).
  { intros [E | [E | [E | []]]]; discriminate. }
  split; [exact H|].
  exact (optimize_shifts_exercise_unknown (list Z) one_file inr "ex4" 1 32 32 H).
Defined.

End LoadDataFacts.
